(** * Wordle rule validator: rule compiler, constraint evaluator,
      retrying request executor, paginated collector and word validator

    A shallow embedding of the TypeScript pipeline (the Node mirror of the
    browser flow and the word-list fetch prototype) together with the
    properties its specification states about it.

    Conventions of the embedding.
    - A JavaScript string is a Rocq [string]; the text is taken to be 7-bit
      ASCII, where [toUpperCase], [toLowerCase], [trim] and the regular
      expression classes [\s], [\d], [\b] and [.] have the meaning given
      below.
    - A JavaScript number holding a count, an index or a length is a [nat];
      [parseInt] returns [option Z], [None] standing for [NaN].  The
      embedding follows the source on integers up to 2^53, where
      [parseInt], [n - 1] and the template literal are exact; beyond, the
      source computes with the nearest double (or [Infinity]) where the
      embedding keeps the integer, and a statement about a numeral read
      from a text is made for the integers up to 2^53 ([safeInteger]).
    - A plain object used as a dictionary is a [gmap]; the rule checks are
      conjunctions over all entries, so the enumeration order of the keys
      does not influence any verdict.
    - The network is an explicit parameter: a function from the request to
      the outcome of [fetch].  Functions that write the validation cache
      take the cache and return the new one. *)

From Stdlib Require Import Ascii String ZArith Lia.
From stdpp Require Import base decidable option list gmap strings pretty.

Local Open Scope string_scope.
Local Open Scope list_scope.
Local Open Scope nat_scope.

(** ** JavaScript string primitives *)

Module JS.

Definition code (c : ascii) : nat := nat_of_ascii c.

Definition inRange (lo hi : nat) (c : ascii) : bool :=
  (lo <=? code c)%nat && (code c <=? hi)%nat.

(** [[A-Z]], [[a-z]] and [\d]. *)
Definition isUpper : ascii → bool := inRange 65 90.
Definition isLower : ascii → bool := inRange 97 122.
Definition isDigit : ascii → bool := inRange 48 57.

(** [\s] and the characters removed by [trim]: TAB, LF, VT, FF, CR, SP. *)
Definition isSpace (c : ascii) : bool :=
  inRange 9 13 c || (code c =? 32)%nat.

(** [\w]: the complement decides where [\b] holds. *)
Definition isWordChar (c : ascii) : bool :=
  isUpper c || isLower c || isDigit c || (code c =? 95)%nat.

(** The characters [.] does not match. *)
Definition isLineTerminator (c : ascii) : bool :=
  (code c =? 10)%nat || (code c =? 13)%nat.

Definition upcase (c : ascii) : ascii :=
  if isLower c then ascii_of_nat (code c - 32) else c.

Definition downcase (c : ascii) : ascii :=
  if isUpper c then ascii_of_nat (code c + 32) else c.

Fixpoint mapChars (f : ascii → ascii) (s : string) : string :=
  match s with
  | EmptyString => EmptyString
  | String c s' => String (f c) (mapChars f s')
  end.

(** [s.toUpperCase()] and [s.toLowerCase()]. *)
Definition toUpperCase : string → string := mapChars upcase.
Definition toLowerCase : string → string := mapChars downcase.

(** [s[i]]: [None] is [undefined], the value past the end. *)
Definition charAt (s : string) (i : nat) : option ascii := String.get i s.

(** [s.includes(letter)] for a one-character [letter]. *)
Fixpoint includes (s : string) (letter : ascii) : bool :=
  match s with
  | EmptyString => false
  | String c s' => if decide (c = letter) then true else includes s' letter
  end.

Fixpoint allChars (p : ascii → bool) (s : string) : bool :=
  match s with
  | EmptyString => true
  | String c s' => p c && allChars p s'
  end.

Fixpoint anyChar (p : ascii → bool) (s : string) : bool :=
  match s with
  | EmptyString => false
  | String c s' => p c || anyChar p s'
  end.

Definition nonEmpty (s : string) : bool :=
  match s with EmptyString => false | _ => true end.

(** The rest of [s] after the literal [p], when [s] starts with [p]. *)
Fixpoint stripPrefix (p s : string) : option string :=
  match p with
  | EmptyString => Some s
  | String a p' =>
      match s with
      | EmptyString => None
      | String b s' => if decide (a = b) then stripPrefix p' s' else None
      end
  end.

(** The longest prefix of [s] whose characters satisfy [p], and the rest. *)
Fixpoint span (p : ascii → bool) (s : string) : string * string :=
  match s with
  | EmptyString => (EmptyString, EmptyString)
  | String c s' =>
      if p c then let '(a, b) := span p s' in (String c a, b)
      else (EmptyString, s)
  end.

Fixpoint dropWhile (p : ascii → bool) (s : string) : string :=
  match s with
  | EmptyString => EmptyString
  | String c s' => if p c then dropWhile p s' else s
  end.

(** [s.trim()]. *)
Definition trimStart : string → string := dropWhile isSpace.
Definition trimEnd (s : string) : string :=
  String.rev (dropWhile isSpace (String.rev s)).
Definition trim (s : string) : string := trimEnd (trimStart s).

(** [s.split(sep)] for a one-character separator: never the empty list. *)
Fixpoint split (sep : ascii) (s : string) : list string :=
  match s with
  | EmptyString => [EmptyString]
  | String c s' =>
      if decide (c = sep) then EmptyString :: split sep s'
      else match split sep s' with
           | cur :: rest => String c cur :: rest
           | [] => [String c EmptyString]
           end
  end.

Definition digitValue (c : ascii) : nat := code c - 48.

(** The value of a run of decimal digits, most significant first. *)
Fixpoint decimalFrom (acc : nat) (s : string) : nat :=
  match s with
  | EmptyString => acc
  | String c s' => decimalFrom (10 * acc + digitValue c) s'
  end.

Definition decimal : string → nat := decimalFrom 0.

(** [parseInt(s, 10)]: leading white space is skipped, one sign is
    accepted, then the longest run of digits is read; no digit gives
    [NaN].  The value is the integer the digits spell, which is what the
    source returns for integers up to 2^53 ([safeInteger], below). *)
Definition parseDigits (s : string) : option nat :=
  let '(ds, _) := span isDigit s in
  if nonEmpty ds then Some (decimal ds) else None.

Definition parseInt (s : string) : option Z :=
  match trimStart s with
  | EmptyString => None
  | String c s' =>
      if bool_decide (c = "-"%char) then (λ n, - Z.of_nat n)%Z <$> parseDigits s'
      else if bool_decide (c = "+"%char) then Z.of_nat <$> parseDigits s'
      else Z.of_nat <$> parseDigits (String c s')
  end.

(** The integers on which the source computes exactly: every integer up
    to 2^53 is a double, read by [parseInt] and printed by a template
    literal as it is written, and [n - 1] is exact. *)
Definition safeInteger (n : nat) : bool := (N.of_nat n <=? 2 ^ 53)%N.

(** A template literal [`${n}`] for a non-negative integer [n]. *)
Definition showNat (n : nat) : string := pretty n.

Definition LF : ascii := ascii_of_nat 10.

(** [lines.join('\n')], used to write multi-line rule texts. *)
Fixpoint unlines (ls : list string) : string :=
  match ls with
  | [] => EmptyString
  | [l] => l
  | l :: ls' => l +:+ String LF (unlines ls')
  end.

End JS.

Import JS.

(** ** The rule set *)

Module Rules.

(** [interface WordleRules]: the letters stored in a rule set are single
    characters (the compiler captures them with [([A-Z])] or keeps only
    pieces of length one), positions are zero-based. *)
Record WordleRules := {
  exact : gmap nat ascii;
  present : gmap ascii (list nat);
  absent : list ascii;
  length : nat
}.

End Rules.

Abbreviation WordleRules := Rules.WordleRules.

(** Field updates, written as the assignments of the source. *)
Definition setExact (index : nat) (letter : ascii) (rules : WordleRules) : WordleRules :=
  {| Rules.exact := <[index := letter]> (Rules.exact rules);
     Rules.present := Rules.present rules;
     Rules.absent := Rules.absent rules;
     Rules.length := Rules.length rules |}.

Definition setPresent (letter : ascii) (positions : list nat) (rules : WordleRules) : WordleRules :=
  {| Rules.exact := Rules.exact rules;
     Rules.present := <[letter := positions]> (Rules.present rules);
     Rules.absent := Rules.absent rules;
     Rules.length := Rules.length rules |}.

Definition pushAbsent (letters : list ascii) (rules : WordleRules) : WordleRules :=
  {| Rules.exact := Rules.exact rules;
     Rules.present := Rules.present rules;
     Rules.absent := Rules.absent rules ++ letters;
     Rules.length := Rules.length rules |}.

Definition setLength (n : nat) (rules : WordleRules) : WordleRules :=
  {| Rules.exact := Rules.exact rules;
     Rules.present := Rules.present rules;
     Rules.absent := Rules.absent rules;
     Rules.length := n |}.

(** ** The rule compiler: [parseRules] *)

Definition defaultRules : WordleRules :=
  {| Rules.exact := ∅; Rules.present := ∅; Rules.absent := []; Rules.length := 5 |}.

(** [/^([A-Z]) AT (\d)$/]: the letter and the digit. *)
Definition exactMatch (line : string) : option (ascii * string) :=
  match line with
  | String c rest =>
      if isUpper c then
        match stripPrefix " AT " rest with
        | Some (String d EmptyString) =>
            if isDigit d then Some (c, String d EmptyString) else None
        | _ => None
        end
      else None
  | EmptyString => None
  end.

Definition isAbsentChar (c : ascii) : bool :=
  isUpper c || bool_decide (c = ","%char) || bool_decide (c = " "%char).

(** [\s+([A-Z, ]+)$] from the current position: [\s+] is greedy and gives
    characters back only when the group cannot match otherwise. *)
Fixpoint absentTail (s : string) : option string :=
  match s with
  | EmptyString => None
  | String c s' =>
      if isSpace c then
        match absentTail s' with
        | Some group => Some group
        | None => if nonEmpty s' && allChars isAbsentChar s' then Some s' else None
        end
      else None
  end.

(** [/^NO\s+([A-Z, ]+)$/]: the captured group. *)
Definition absentMatch (line : string) : option string :=
  stripPrefix "NO" line ≫= absentTail.

(** [/^([A-Z]) IN WORD/]: the captured letter; the line may go on. *)
Definition presentMatch (line : string) : option ascii :=
  match line with
  | String c rest =>
      if isUpper c then
        match stripPrefix " IN WORD" rest with
        | Some _ => Some c
        | None => None
        end
      else None
  | EmptyString => None
  end.

Definition isPositionChar (c : ascii) : bool :=
  isDigit c || bool_decide (c = ","%char) || bool_decide (c = " "%char).

(** [/NOT AT ([\d, ]+)$/], unanchored on the left: the leftmost start at
    which the pattern matches supplies the group. *)
Fixpoint notAtMatch (line : string) : option string :=
  match line with
  | EmptyString => None
  | String _ line' =>
      match stripPrefix "NOT AT " line with
      | Some group =>
          if nonEmpty group && allChars isPositionChar group then Some group
          else notAtMatch line'
      | None => notAtMatch line'
      end
  end.

(** [\s*(\d+)$] from the current position. *)
Fixpoint lengthTail (s : string) : option string :=
  let digits := if nonEmpty s && allChars isDigit s then Some s else None in
  match s with
  | EmptyString => None
  | String c s' =>
      if isSpace c then
        match lengthTail s' with
        | Some group => Some group
        | None => digits
        end
      else digits
  end.

(** [/^LENGTH:\s*(\d+)$/]: the captured digits. *)
Definition lengthMatch (line : string) : option string :=
  stripPrefix "LENGTH:" line ≫= lengthTail.

(** [split(',').map(l => l.trim()).filter(l => l.length === 1)]. *)
Definition absentLetters (group : string) : list ascii :=
  omap (λ l, match trim l with
             | String c EmptyString => Some c
             | _ => None
             end) (split ","%char group).

(** [split(',').map(p => parseInt(p.trim(), 10) - 1).filter(p => p >= 0)];
    [NaN - 1] is [NaN] and [NaN >= 0] is false. *)
Definition disallowedPositionsOf (group : string) : list nat :=
  omap (λ p, match parseInt (trim p) with
             | Some n => if (0 <=? n - 1)%Z then Some (Z.to_nat (n - 1)) else None
             | None => None
             end) (split ","%char group).

(** [parseInt(digits, 10)] as a count, for a captured group of digits
    (which never reads as [NaN]); as [parseInt], exact. *)
Definition parseNat (digits : string) : nat :=
  match parseInt digits with
  | Some n => Z.to_nat n
  | None => 0
  end.

(** The disallowed positions a presence line carries. *)
Definition positionsOfLine (line : string) : list nat :=
  match notAtMatch line with
  | Some group => disallowedPositionsOf group
  | None => []
  end.

(** The loop body below the exact-position block: the first of the three
    later patterns that matches the line is applied. *)
Definition laterPatterns (rules : WordleRules) (line : string) : WordleRules :=
  match absentMatch line with
  | Some group => pushAbsent (absentLetters group) rules
  | None =>
      match presentMatch line with
      | Some letter => setPresent letter (positionsOfLine line) rules
      | None =>
          match lengthMatch line with
          | Some digits => setLength (parseNat digits) rules
          | None => rules
          end
      end
  end.

(** One iteration of the loop over the lines.  A line that matches the
    exact pattern with the digit 0 falls through to the later patterns. *)
Definition parseLine (rules : WordleRules) (line : string) : WordleRules :=
  match exactMatch line with
  | Some (letter, digit) =>
      let position := parseNat digit in
      if (1 <=? position)%nat && (position <=? 9)%nat
      then setExact (position - 1) letter rules
      else laterPatterns rules line
  | None => laterPatterns rules line
  end.

(** [dslRules.toUpperCase().split('\n').map(trim).filter(nonempty)]. *)
Definition sourceLines (dslRules : string) : list string :=
  filter (λ line, nonEmpty line = true) (trim <$> split LF (toUpperCase dslRules)).

Definition parseLines (lines : list string) (rules : WordleRules) : WordleRules :=
  fold_left parseLine lines rules.

Definition parseRules (dslRules : string) : WordleRules :=
  parseLines (sourceLines dslRules) defaultRules.

(** ** The constraint evaluator: [checkRules] *)

(** The loop over [rules.exact]: [word[index] !== rules.exact[index]]
    rejects. *)
Definition exactOk (word : string) (rules : WordleRules) : bool :=
  bool_decide (map_Forall (λ index letter, charAt word index = Some letter)
                          (Rules.exact rules)).

(** The loop over [rules.absent]: [word.includes(letter)] rejects. *)
Definition absentOk (word : string) (rules : WordleRules) : bool :=
  forallb (λ letter, negb (includes word letter)) (Rules.absent rules).

(** The loop over [rules.present]: a missing letter rejects, and so does
    the letter at one of its disallowed positions. *)
Definition positionsOk (word : string) (letter : ascii) (disallowedPositions : list nat) : bool :=
  forallb (λ index, negb (bool_decide (charAt word index = Some letter)))
          disallowedPositions.

Definition presentOk (word : string) (rules : WordleRules) : bool :=
  bool_decide (map_Forall (λ letter disallowedPositions,
                             includes word letter = true ∧
                             positionsOk word letter disallowedPositions = true)
                          (Rules.present rules)).

Definition checkRules (word : string) (rules : WordleRules) : bool :=
  let word := toUpperCase word in
  if negb (String.length word =? Rules.length rules)%nat then false
  else if negb (exactOk word rules) then false
  else if negb (absentOk word rules) then false
  else if negb (presentOk word rules) then false
  else true.

(** The four [return false] statements, in source order. *)
Inductive RuleCheck := LengthCheck | ExactCheck | AbsentCheck | PresentCheck.

(** The [return false] that ends a call, [None] when [return true] is
    reached. *)
Definition rejectedBy (word : string) (rules : WordleRules) : option RuleCheck :=
  let word := toUpperCase word in
  if negb (String.length word =? Rules.length rules)%nat then Some LengthCheck
  else if negb (exactOk word rules) then Some ExactCheck
  else if negb (absentOk word rules) then Some AbsentCheck
  else if negb (presentOk word rules) then Some PresentCheck
  else None.

(** ** The network *)

(** What awaiting [fetch] gives: a response, or a rejection carrying the
    error's [name] and [message] (an [AbortError] when the attempt was
    aborted by its timer, a [TypeError] on a transport failure). *)
Inductive Fetched (B : Type) :=
| Response (status : nat) (statusText : string) (body : B)
| Rejects (name message : string).

Arguments Response {B} status statusText body.
Arguments Rejects {B} name message.

(** [response.ok]: a status in 200..299. *)
Definition ok (status : nat) : bool := (200 <=? status)%nat && (status <=? 299)%nat.

(** ** The retrying request executor: [handleGeminiApiCall] *)

Definition GEMINI_API_URL : string :=
  "https://generativelanguage.googleapis.com/v1beta/models/gemini-2.5-flash-preview-09-2025:generateContent".
Definition GEMINI_TIMEOUT_MS : nat := 20000.

(** [interface GeminiResponse], reduced to the two fields that are read:
    the text of the first candidate and [error.message]. *)
Record GeminiResponse := {
  candidateText : option string;
  errorMessage : option string
}.

(** What [response.json()] finds in the body: no JSON at all (the promise
    rejects with the given message), the value [null], or an object. *)
Inductive JsonBody :=
| NotJson (syntaxError : string)
| JsonNull
| JsonObject (r : GeminiResponse).

Inductive Outcome (A : Type) :=
| Returns (a : A)
| Throws (message : string).

Arguments Returns {A} a.
Arguments Throws {A} message.

(** A finished call: its result, the number of requests sent and the
    delays waited between them, in milliseconds and in order. *)
Record Call := {
  result : Outcome (option GeminiResponse);
  attempts : nat;
  waits : list nat
}.

Definition timeoutMessage : string :=
  "Gemini API call timed out after " +:+ showNat (GEMINI_TIMEOUT_MS / 1000) +:+ " seconds.".

(** [errorBody.error?.message || response.statusText]. *)
Definition serverMessage (errorBody : option GeminiResponse) (statusText : string) : string :=
  match errorBody ≫= errorMessage with
  | Some message => if nonEmpty message then message else statusText
  | None => statusText
  end.

Definition failureMessage (status : nat) (message : string) : string :=
  "Gemini API call failed with status: " +:+ showNat status +:+ ". Message: " +:+
  message +:+ ". Check the console for more details.".

(** The [TypeError] raised by reading [.error] of [null] (V8's wording). *)
Definition nullErrorMessage : string :=
  "Cannot read properties of null (reading 'error')".

Section Executor.

(** The outcome of the attempt with the given zero-based index; the
    request body does not influence the control flow. *)
Variable fetch : nat → string → Fetched JsonBody.
Variable fullApiUrl : string.

(** The [for] loop from attempt [i] on, [remaining] being
    [maxRetries - i].  [caught] is the [catch] block: every error raised
    inside the [try], the one of the [else] branch included, arrives
    there. *)
Fixpoint attemptLoop (remaining i delay : nat) (waited : list nat) : Call :=
  match remaining with
  | 0 =>
      {| result := Throws "Failed to complete Gemini API call after all retries.";
         attempts := i; waits := waited |}
  | S remaining' =>
      let isLast := (remaining' =? 0)%nat in
      let retry := attemptLoop remaining' (S i) (delay * 2) (waited ++ [delay])%list in
      let caught (message : string) :=
        if isLast
        then {| result := Throws message; attempts := S i; waits := waited |}
        else retry in
      match fetch i fullApiUrl with
      | Rejects name message =>
          caught (if bool_decide (name = "AbortError") then timeoutMessage else message)
      | Response status statusText body =>
          if ok status then
            match body with
            | NotJson syntaxError => caught syntaxError
            | JsonNull => {| result := Returns None; attempts := S i; waits := waited |}
            | JsonObject r => {| result := Returns (Some r); attempts := S i; waits := waited |}
            end
          else if (status =? 429)%nat && negb isLast then retry
          else
            match body with
            | NotJson _ => caught (failureMessage status (serverMessage None statusText))
            | JsonNull => caught nullErrorMessage
            | JsonObject r => caught (failureMessage status (serverMessage (Some r) statusText))
            end
      end
  end.

End Executor.

Definition handleGeminiApiCall (fetch : nat → string → Fetched JsonBody)
    (apiKey : string) (maxRetries delay : nat) : Call :=
  let fullApiUrl := GEMINI_API_URL +:+ "?key=" +:+ apiKey in
  if negb (nonEmpty apiKey)
  then {| result := Throws "API Key is required."; attempts := 0; waits := [] |}
  else attemptLoop fetch fullApiUrl maxRetries 0 delay [].

(** ** The external validator: [validateWordExistence] *)

Definition DICT_API_URL : string := "https://api.dictionaryapi.dev/api/v2/entries/en/".

(** A finished lookup: the verdict, the cache afterwards and the requests
    that were sent. *)
Record Lookup := {
  verdict : bool;
  cache : gmap string bool;
  requests : list string
}.

(** [`${word}:${requiredLength}`]; every key holds a colon, so none names
    a property inherited from [Object.prototype]. *)
Definition cacheKey (word : string) (requiredLength : nat) : string :=
  word +:+ ":" +:+ showNat requiredLength.

Definition validateWordExistence (fetch : string → Fetched unit)
    (word : string) (requiredLength : nat) (WORD_CACHE : gmap string bool) : Lookup :=
  let word := toLowerCase word in
  let cacheKey := cacheKey word requiredLength in
  let store (v : bool) (sent : list string) :=
    {| verdict := v; cache := <[cacheKey := v]> WORD_CACHE; requests := sent |} in
  match WORD_CACHE !! cacheKey with
  | Some v => {| verdict := v; cache := WORD_CACHE; requests := [] |}
  | None =>
      if negb (String.length word =? requiredLength)%nat then store false []
      else
        let url := DICT_API_URL +:+ word in
        match fetch url with
        | Response status _ _ =>
            if ok status then store true [url]
            else if (status =? 404)%nat then store false [url]
            else store true [url]
        | Rejects _ _ => store true [url]
        end
  end.

(** ** The paginated collector *)

Definition startsWith (p s : string) : bool := bool_decide (is_Some (stripPrefix p s)).

(** [html.replace(/<b>|<\/b>/g, '')]: one pass from the left, [skip]
    counting the characters of a match still to be dropped. *)
Fixpoint removeBoldFrom (skip : nat) (s : string) : string :=
  match s with
  | EmptyString => EmptyString
  | String c s' =>
      match skip with
      | S k => removeBoldFrom k s'
      | 0 =>
          if startsWith "<b>" s then removeBoldFrom 2 s'
          else if startsWith "</b>" s then removeBoldFrom 3 s'
          else String c (removeBoldFrom 0 s')
      end
  end.

(** The number of characters the lazy [(.*?)] takes before [</span>];
    [.] stops at a line terminator. *)
Fixpoint lazyUntilClose (s : string) : option nat :=
  match s with
  | EmptyString => None
  | String c s' =>
      if startsWith "</span>" s then Some 0
      else if isLineTerminator c then None
      else S <$> lazyUntilClose s'
  end.

(** [cleanHtml.replace(/<span class=rd>(.*?)<\/span>/g, '')]. *)
Fixpoint removeRedFrom (skip : nat) (s : string) : string :=
  match s with
  | EmptyString => EmptyString
  | String c s' =>
      match skip with
      | S k => removeRedFrom k s'
      | 0 =>
          match stripPrefix "<span class=rd>" s ≫= lazyUntilClose with
          | Some n =>
              removeRedFrom (String.length "<span class=rd>" + n + String.length "</span>" - 1) s'
          | None => String c (removeRedFrom 0 s')
          end
      end
  end.

(** [[A-Z]{n}] at the start of [s]: the run and what follows it. *)
Fixpoint takeUpper (n : nat) (s : string) : option (string * string) :=
  match n with
  | 0 => Some (EmptyString, s)
  | S n' =>
      match s with
      | String c s' =>
          if isUpper c
          then (λ '(word, rest), (String c word, rest)) <$> takeUpper n' s'
          else None
      | EmptyString => None
      end
  end.

(** [\b] after a run of letters: the end of the text or a non-word
    character. *)
Definition boundaryAfter (rest : string) : bool :=
  match rest with
  | EmptyString => true
  | String c _ => negb (isWordChar c)
  end.

(** The [exec] loop of [/\b([A-Z]{n})\b/g] for [n >= 1]: [prevIsWord]
    tells whether the character before the current position is a word
    character, [skip] counts the characters of a match still to pass. *)
Fixpoint scanWords (n skip : nat) (prevIsWord : bool) (s : string) : list string :=
  match s with
  | EmptyString => []
  | String c s' =>
      match skip with
      | S k => scanWords n k (isWordChar c) s'
      | 0 =>
          match (if prevIsWord then None else takeUpper n s) with
          | Some (word, rest) =>
              if boundaryAfter rest
              then word :: scanWords n (n - 1) (isWordChar c) s'
              else scanWords n 0 (isWordChar c) s'
          | None => scanWords n 0 (isWordChar c) s'
          end
      end
  end.

(** [extractWordsFromHtml].  With [wordLength = 0] the pattern matches the
    empty string at the first word boundary and [exec] never advances:
    the loop does not end ([None]) as soon as the text has a word
    character. *)
Definition extractWordsFromHtml (html : string) (wordLength : nat) : option (list string) :=
  let cleanHtml := removeBoldFrom 0 html in
  let htmlWithoutRed := removeRedFrom 0 cleanHtml in
  match wordLength with
  | 0 => if anyChar isWordChar htmlWithoutRed then None else Some []
  | S _ => Some (scanWords wordLength 0 false htmlWithoutRed)
  end.

(** [page(\d+)\.htm] at the start of [t], [t] being all that is left
    before the closing [>]. *)
Definition pageSuffix (t : string) : option string :=
  match stripPrefix "page" t with
  | Some u =>
      let '(digits, rest) := span isDigit u in
      if nonEmpty digits && bool_decide (rest = ".htm") then Some digits else None
  | None => None
  end.

(** [[^>]*page(\d+)\.htm] over the text before the closing [>]: the
    greedy [[^>]*] prefers the longest prefix. *)
Fixpoint hrefPage (segment : string) : option string :=
  match segment with
  | EmptyString => None
  | String _ segment' =>
      match hrefPage segment' with
      | Some digits => Some digits
      | None => pageSuffix segment
      end
  end.

(** The pattern of [getNextPageNumber] anchored at the start of [s]. *)
Definition nextLinkAt (s : string) : option string :=
  match stripPrefix "<link rel=next href=" s with
  | Some rest =>
      let '(segment, closing) := span (λ c, negb (bool_decide (c = ">"%char))) rest in
      if nonEmpty closing then hrefPage segment else None
  | None => None
  end.

(** [html.match(/<link rel=next href=[^>]*page(\d+)\.htm>/)]: the
    leftmost match. *)
Fixpoint nextLink (html : string) : option string :=
  match html with
  | EmptyString => None
  | String _ html' =>
      match nextLinkAt html with
      | Some digits => Some digits
      | None => nextLink html'
      end
  end.

Definition getNextPageNumber (html : string) : option nat :=
  parseNat <$> nextLink html.

(** [Array.from(new Set(allWords))]: first occurrences, in order. *)
Fixpoint uniqueFrom (seen : list string) (words : list string) : list string :=
  match words with
  | [] => []
  | w :: words' =>
      if bool_decide (w ∈ seen) then uniqueFrom seen words'
      else w :: uniqueFrom (w :: seen) words'
  end.

Definition uniqueWords : list string → list string := uniqueFrom [].

(** How a collection ends: it returns a list, it never leaves the
    extraction loop, or the model's fuel ran out while pages kept
    chaining. *)
Inductive Collected :=
| Finished (words : list string)
| HangsInExtraction
| OutOfFuel.

(** A run of the collector: how it ended and the page numbers requested,
    in order. *)
Record Run := {
  collected : Collected;
  fetchedPages : list nat
}.

Definition pageUrlOf (baseUrl : string) (currentPage : nat) : string :=
  if (currentPage =? 1)%nat then baseUrl +:+ ".htm"
  else baseUrl +:+ "page" +:+ showNat currentPage +:+ ".htm".

(** [nextPageNum && nextPageNum === currentPage + 1]. *)
Definition chainsTo (nextPageNum : option nat) (currentPage : nat) : bool :=
  match nextPageNum with
  | Some n => negb (n =? 0)%nat && (n =? currentPage + 1)%nat
  | None => false
  end.

Section Collector.

(** The outcome of requesting a URL; the body is [None] when
    [response.text()] rejects. *)
Variable fetch : string → Fetched (option string).
Variables (baseUrl : string) (wordLength : nat).

(** The [while (hasMorePages)] loop inside the [try]; one unit of fuel
    per page. *)
Fixpoint pageLoop (fuel currentPage : nat) (allWords : list string)
    (requested : list nat) : Run :=
  match fuel with
  | 0 => {| collected := OutOfFuel; fetchedPages := requested |}
  | S fuel' =>
      let requested := (requested ++ [currentPage])%list in
      let ends (c : Collected) := {| collected := c; fetchedPages := requested |} in
      match fetch (pageUrlOf baseUrl currentPage) with
      | Rejects _ _ => ends (Finished [])
      | Response status _ body =>
          if negb (ok status) then
            if (status =? 404)%nat && (1 <? currentPage)%nat
            then ends (Finished (uniqueWords allWords))
            else ends (Finished [])
          else
            match body with
            | None => ends (Finished [])
            | Some html =>
                match extractWordsFromHtml html wordLength with
                | None => ends HangsInExtraction
                | Some pageWords =>
                    let allWords := (allWords ++ pageWords)%list in
                    let nextPageNum := getNextPageNumber html in
                    if chainsTo nextPageNum currentPage
                    then pageLoop fuel' (currentPage + 1) allWords requested
                    else ends (Finished (uniqueWords allWords))
                end
            end
      end
  end.

End Collector.

(** [Object.keys(rules.exact).map(k => parseInt(k))[0]]: integer keys are
    enumerated in ascending order, so the first one is the least. *)
Definition firstExactPosition (rules : WordleRules) : option nat :=
  foldr (λ k least, Some (match least with Some k' => Nat.min k k' | None => k end))
        None (fst <$> map_to_list (Rules.exact rules)).

Definition positionNames : list string := ["first"; "second"; "third"; "fourth"; "fifth"].

Definition seedBaseUrl (rules : WordleRules) (position : nat) (letter : ascii) : string :=
  let positionName := default ("position" +:+ showNat (position + 1)) (positionNames !! position) in
  let lower := String (downcase letter) EmptyString in
  "https://www.bestwordlist.com/p/" +:+ lower +:+ "/1/words" +:+
  showNat (Rules.length rules) +:+ "letters" +:+ positionName +:+ "letter" +:+ lower.

Definition fetchWordListByPosition (fetch : string → Fetched (option string))
    (rules : WordleRules) (fuel : nat) : Run :=
  match firstExactPosition rules with
  | None => {| collected := Finished []; fetchedPages := [] |}
  | Some position =>
      match Rules.exact rules !! position with
      | Some letter =>
          pageLoop fetch (seedBaseUrl rules position letter) (Rules.length rules) fuel 1 [] []
      | None => {| collected := Finished []; fetchedPages := [] |}
      end
  end.

(** ** The fetch prototype: [fetchWordsFromUrl] *)

(** [baseUrl.replace(/\.htm$/, '')]. *)
Fixpoint dropHtmSuffix (url : string) : string :=
  match url with
  | EmptyString => EmptyString
  | String c url' =>
      if bool_decide (url = ".htm") then EmptyString else String c (dropHtmSuffix url')
  end.

Definition prototypeUrlOf (baseUrl : string) (currentPage : nat) : string :=
  if (currentPage =? 1)%nat then baseUrl
  else dropHtmSuffix baseUrl +:+ "page" +:+ showNat currentPage +:+ ".htm".

Section Prototype.

(** The prototype is given the address of the first page.  Its loop is
    the one of the collector with the extraction written in place; the
    list is returned as accumulated and the caller removes duplicates. *)
Variable fetch : string → Fetched (option string).
Variables (baseUrl : string) (wordLength : nat).

Fixpoint urlLoop (fuel currentPage : nat) (allWords : list string)
    (requested : list nat) : Run :=
  match fuel with
  | 0 => {| collected := OutOfFuel; fetchedPages := requested |}
  | S fuel' =>
      let requested := (requested ++ [currentPage])%list in
      let ends (c : Collected) := {| collected := c; fetchedPages := requested |} in
      match fetch (prototypeUrlOf baseUrl currentPage) with
      | Rejects _ _ => ends (Finished [])
      | Response status _ body =>
          if negb (ok status) then
            if (status =? 404)%nat && (1 <? currentPage)%nat
            then ends (Finished allWords)
            else ends (Finished [])
          else
            match body with
            | None => ends (Finished [])
            | Some html =>
                match extractWordsFromHtml html wordLength with
                | None => ends HangsInExtraction
                | Some matches =>
                    let allWords := (allWords ++ matches)%list in
                    let nextPageNum := getNextPageNumber html in
                    if chainsTo nextPageNum currentPage
                    then urlLoop fuel' (currentPage + 1) allWords requested
                    else ends (Finished allWords)
                end
            end
      end
  end.

End Prototype.

Definition fetchWordsFromUrl (fetch : string → Fetched (option string))
    (baseUrl : string) (wordLength fuel : nat) : Run :=
  urlLoop fetch baseUrl wordLength fuel 1 [] [].

(** [getAllowedPositions] of the fetch prototype:
    [Array.from({ length: wordLength }, (_, i) => i)] without the
    positions [disallowedPositions.includes] finds. *)
Definition getAllowedPositions (wordLength : nat) (disallowedPositions : list nat) : list nat :=
  filter (λ pos, pos ∉ disallowedPositions) (seq 0 wordLength).

(** ** The pipeline of [main], from the rule text on *)

(** The outcome of the validation loop: the words kept, the cache
    afterwards and the requests sent to the dictionary, in order. *)
Record Validation := {
  validWords : list string;
  finalCache : gmap string bool;
  sent : list string
}.

(** The loop [for (let i = 0; i < candidateWords.length; i++)]:
    [fetch i] is what the network answers during turn [i]. *)
Fixpoint validateLoop (fetch : nat → string → Fetched unit) (requiredLength i : nat)
    (candidateWords : list string) (WORD_CACHE : gmap string bool) : Validation :=
  match candidateWords with
  | [] => {| validWords := []; finalCache := WORD_CACHE; sent := [] |}
  | word :: rest =>
      let isValid := validateWordExistence (fetch i) word requiredLength WORD_CACHE in
      let later := validateLoop fetch requiredLength (S i) rest (cache isValid) in
      {| validWords := if verdict isValid then word :: validWords later else validWords later;
         finalCache := finalCache later;
         sent := requests isValid ++ sent later |}
  end.

(** How [main] ends once the translation has given the rule text. *)
Inductive MainOutcome :=
| NoWordsFetched
| NoWordsMatch
| Validated (candidateWords : list string) (v : Validation)
| NotFinished (c : Collected).

(** [main] from [parseRules(result.dsl_rules)] to the end of the
    validation loop. *)
Definition mainFromRules (pages : string → Fetched (option string))
    (dictionary : nat → string → Fetched unit) (dsl_rules : string) (fuel : nat)
    (WORD_CACHE : gmap string bool) : MainOutcome :=
  let rules := parseRules dsl_rules in
  match collected (fetchWordListByPosition pages rules fuel) with
  | Finished allWords =>
      if (List.length allWords =? 0)%nat then NoWordsFetched
      else
        let candidateWords := filter (λ word, checkRules word rules = true) allWords in
        if (List.length candidateWords =? 0)%nat then NoWordsMatch
        else Validated candidateWords
               (validateLoop dictionary (Rules.length rules) 0 candidateWords WORD_CACHE)
  | c => NotFinished c
  end.

(** ** Vocabulary of the specification *)

(** The letter occurs somewhere in the word. *)
Definition occursIn (letter : ascii) (word : string) : Prop :=
  ∃ i, charAt word i = Some letter.

(** The four checks of the evaluator, as the specification words them. *)
Definition lengthHolds (word : string) (rules : WordleRules) : Prop :=
  String.length word = Rules.length rules.

Definition exactHolds (word : string) (rules : WordleRules) : Prop :=
  ∀ p letter, Rules.exact rules !! p = Some letter → charAt word p = Some letter.

Definition absentHolds (word : string) (rules : WordleRules) : Prop :=
  ∀ letter, letter ∈ Rules.absent rules → ¬ occursIn letter word.

Definition presentHolds (word : string) (rules : WordleRules) : Prop :=
  ∀ letter positions, Rules.present rules !! letter = Some positions →
    occursIn letter word ∧ ∀ p, p ∈ positions → charAt word p ≠ Some letter.

(** Two characters that are equal or are the two cases of one letter. *)
Definition sameLetter (a b : ascii) : Prop :=
  a = b ∨ (isUpper a = true ∧ code b = code a + 32) ∨
          (isUpper b = true ∧ code a = code b + 32).

(** Two strings that differ only in letter case. *)
Fixpoint sameModuloCase (s t : string) : Prop :=
  match s, t with
  | EmptyString, EmptyString => True
  | String a s', String b t' => sameLetter a b ∧ sameModuloCase s' t'
  | _, _ => False
  end.

(** The length declared by the last [LENGTH:] line, if any. *)
Definition declaredLength (lines : list string) : option nat :=
  last (omap (λ line, parseNat <$> lengthMatch line) lines).

(** The words the collector extracts from page [p], when that page
    arrives; [pageUrl] gives the address of a page. *)
Definition pageWordsAt (fetch : string → Fetched (option string))
    (pageUrl : nat → string) (wordLength p : nat) : list string :=
  match fetch (pageUrl p) with
  | Response _ _ (Some html) => default [] (extractWordsFromHtml html wordLength)
  | _ => []
  end.

(** The words of pages [first], [first + 1], ..., [count] pages in all. *)
Definition wordsOfPages (fetch : string → Fetched (option string))
    (pageUrl : nat → string) (wordLength first count : nat) : list string :=
  concat (pageWordsAt fetch pageUrl wordLength <$> seq first count).

(** An attempt of the request executor that ends in the [catch] block or
    in the retry branch: the request failed, the status is not a success,
    or the body of a success is not JSON. *)
Definition attemptFails (r : Fetched JsonBody) : Prop :=
  match r with
  | Rejects _ _ => True
  | Response status _ body =>
      ok status = false ∨ ∃ syntaxError, body = NotJson syntaxError
  end.

(** A page that arrived with a success status and a readable body from
    which the words could be extracted. *)
Definition pageReadAt (fetch : string → Fetched (option string))
    (pageUrl : nat → string) (wordLength p : nat) (html : string) : Prop :=
  ∃ status statusText,
    fetch (pageUrl p) = Response status statusText (Some html) ∧ ok status = true ∧
    is_Some (extractWordsFromHtml html wordLength).

(** Characters other than the [>] that closes a tag, and other than the
    [<] that opens one. *)
Definition notClosing (c : ascii) : bool := negb (bool_decide (c = ">"%char)).
Definition notOpening (c : ascii) : bool := negb (bool_decide (c = "<"%char)).

(** The letters an absence line contributes. *)
Definition absentLettersOfLine (line : string) : list ascii :=
  match absentMatch line with
  | Some group => absentLetters group
  | None => []
  end.

(** The exact-position line for a letter and a digit. *)
Definition exactLine (letter digit : ascii) : string :=
  String letter (" AT " +:+ String digit EmptyString).

(** The address the validator asks for a word. *)
Definition dictionaryUrl (word : string) : string := DICT_API_URL +:+ toLowerCase word.

(** What the caller of the prototype's loop makes of its result:
    [Array.from(new Set(allWords))] of the words returned. *)
Definition withoutDuplicates (c : Collected) : Collected :=
  match c with
  | Finished allWords => Finished (uniqueWords allWords)
  | c => c
  end.

(** The integer a piece of a position list starts with, the white space
    around the piece set aside; [None] when it starts with no digit. *)
Definition leadingInteger (piece : string) : option nat :=
  let '(digits, _) := span isDigit (trimStart (trim piece)) in
  if nonEmpty digits then Some (decimal digits) else None.

(** The pieces of a position list that start with an integer of at least
    one. *)
Definition keptPiece (piece : string) : bool :=
  match leadingInteger piece with
  | Some n => (1 <=? n)%nat
  | None => false
  end.

(** The stored position [p] was read from the piece: the piece starts
    with an integer of at least one, and [p] is that integer minus one
    when the integer is one the source computes exactly. *)
Definition storedFrom (p : nat) (piece : string) : Prop :=
  ∃ n, leadingInteger piece = Some n ∧ 1 ≤ n ∧ (safeInteger n = true → p = n - 1).

(** The digits of the last [LENGTH:] line, if there is one. *)
Definition lastLengthDigits (lines : list string) : option string :=
  last (omap lengthMatch lines).

Definition isZeroDigit (c : ascii) : bool := bool_decide (c = "0"%char).

(** A piece of a position list holds digits and spaces. *)
Definition isPieceChar (c : ascii) : bool := isDigit c || bool_decide (c = " "%char).

(** ** Sample inputs *)

(** The rule text [O AT 3 / A IN WORD / NO S, T, R, E / LENGTH: 5],
    compiled. *)
Definition sampleRules : WordleRules :=
  parseRules (unlines ["O AT 3"; "A IN WORD"; "NO S, T, R, E"; "LENGTH: 5"]).

(** A rule text that lists the letter A as absent and as present. *)
Definition conflictRules : WordleRules :=
  parseRules (unlines ["B AT 1"; "R AT 2"; "NO A"; "A IN WORD"]).

(** A lookup service that cannot be reached. *)
Definition unreachable : string → Fetched unit :=
  λ _, Rejects "TypeError" "fetch failed".

(** A translation service that answers a server error first and the
    payload on the second attempt. *)
Definition samplePayload : GeminiResponse :=
  {| candidateText := Some "O AT 3"; errorMessage := None |}.

Definition serverErrorThenSuccess : nat → string → Fetched JsonBody :=
  λ i _, match i with
         | 0 => Response 500 "Internal Server Error"
                  (JsonObject {| candidateText := None;
                                 errorMessage := Some "backend unavailable" |})
         | _ => Response 200 "OK" (JsonObject samplePayload)
         end.

(** A word source with one page that announces a second one. *)
Definition sampleBaseUrl : string :=
  "https://www.bestwordlist.com/p/o/1/words5lettersthirdlettero".

Definition samplePage1 : string :=
  "<link rel=next href=words5lettersthirdletteropage2.htm> AB<b>O</b>DE <span class=rd>XXOXX</span> AMONG ABODE".

Definition samplePage2 : string := "ADOPT AMONG".

Definition pagesThen (others : Fetched (option string)) : string → Fetched (option string) :=
  λ url, if bool_decide (url = sampleBaseUrl +:+ ".htm")
         then Response 200 "OK" (Some samplePage1)
         else others.

(** The second page is there, is not found, or fails on the server. *)
Definition twoPages : string → Fetched (option string) :=
  λ url, if bool_decide (url = sampleBaseUrl +:+ "page2.htm")
         then Response 200 "OK" (Some samplePage2)
         else pagesThen (Response 404 "Not Found" None) url.

Definition secondPageMissing : string → Fetched (option string) :=
  pagesThen (Response 404 "Not Found" None).

Definition secondPageBroken : string → Fetched (option string) :=
  pagesThen (Response 500 "Internal Server Error" None).

(** Closed decidable goals are settled by evaluation. *)
Ltac decide_by_compute := apply (bool_decide_unpack _); vm_compute; exact I.

(** ** Properties of the string primitives *)

Lemma charAt_empty i : charAt EmptyString i = None.
Proof. by destruct i. Qed.

Lemma charAt_past_end (s : string) : ∀ i, String.length s ≤ i → charAt s i = None.
Proof.
  induction s as [|c s IH]; intros i Hi; [apply charAt_empty|].
  destruct i as [|i]; simpl in *; [lia|]. apply IH. lia.
Qed.

Lemma charAt_in_range (s : string) : ∀ i c, charAt s i = Some c → i < String.length s.
Proof.
  intros i c H. destruct (decide (i < String.length s)) as [|Hge]; [done|].
  rewrite charAt_past_end in H by lia. done.
Qed.

Lemma includes_occursIn (word : string) (letter : ascii) :
  includes word letter = true ↔ occursIn letter word.
Proof.
  induction word as [|c word IH]; simpl.
  - split; [done|]. intros [i Hi]. by rewrite charAt_empty in Hi.
  - destruct (decide (c = letter)) as [->|Hne].
    + split; [|done]. intros _. by exists 0.
    + rewrite IH. split.
      * intros [i Hi]. by exists (S i).
      * intros [[|i] Hi]; simpl in Hi; [congruence|]. by exists i.
Qed.

Lemma length_mapChars f (s : string) : String.length (mapChars f s) = String.length s.
Proof. induction s; simpl; congruence. Qed.

Lemma length_toUpperCase (s : string) : String.length (toUpperCase s) = String.length s.
Proof. apply length_mapChars. Qed.

Lemma length_toLowerCase (s : string) : String.length (toLowerCase s) = String.length s.
Proof. apply length_mapChars. Qed.

Lemma inRange_spec lo hi c : inRange lo hi c = true ↔ lo ≤ code c ≤ hi.
Proof.
  unfold inRange. rewrite andb_true_iff, !Nat.leb_le. done.
Qed.

Lemma sameLetter_upcase a b : sameLetter a b → upcase a = upcase b.
Proof.
  unfold sameLetter, upcase, isLower, isUpper.
  intros [->|[[Ha Hb]|[Hb Ha]]]; [done| |].
  - apply inRange_spec in Ha.
    destruct (inRange 97 122 a) eqn:Hla; [apply inRange_spec in Hla; lia|].
    destruct (inRange 97 122 b) eqn:Hlb.
    + rewrite Hb. replace (code a + 32 - 32) with (code a) by lia.
      unfold code. by rewrite ascii_nat_embedding.
    + apply not_true_iff_false in Hlb. rewrite inRange_spec in Hlb. lia.
  - apply inRange_spec in Hb.
    destruct (inRange 97 122 b) eqn:Hlb; [apply inRange_spec in Hlb; lia|].
    destruct (inRange 97 122 a) eqn:Hla.
    + rewrite Ha. replace (code b + 32 - 32) with (code b) by lia.
      unfold code. by rewrite ascii_nat_embedding.
    + apply not_true_iff_false in Hla. rewrite inRange_spec in Hla. lia.
Qed.

Lemma sameLetter_downcase a b : sameLetter a b → downcase a = downcase b.
Proof.
  unfold sameLetter, downcase, isUpper.
  intros [->|[[Ha Hb]|[Hb Ha]]]; [done| |].
  - rewrite Ha. apply inRange_spec in Ha.
    destruct (inRange 65 90 b) eqn:Hub; [apply inRange_spec in Hub; lia|].
    rewrite <- Hb. unfold code. by rewrite ascii_nat_embedding.
  - rewrite Hb. apply inRange_spec in Hb.
    destruct (inRange 65 90 a) eqn:Hua; [apply inRange_spec in Hua; lia|].
    rewrite <- Ha. unfold code. by rewrite ascii_nat_embedding.
Qed.

Lemma sameModuloCase_toUpperCase (s : string) :
  ∀ t, sameModuloCase s t → toUpperCase s = toUpperCase t.
Proof.
  induction s as [|a s IH]; intros [|b t] H; simpl in *; try done.
  destruct H as [Hab Hst]. unfold toUpperCase in *. simpl.
  by rewrite (sameLetter_upcase a b Hab), (IH t Hst).
Qed.

Lemma sameModuloCase_toLowerCase (s : string) :
  ∀ t, sameModuloCase s t → toLowerCase s = toLowerCase t.
Proof.
  induction s as [|a s IH]; intros [|b t] H; simpl in *; try done.
  destruct H as [Hab Hst]. unfold toLowerCase in *. simpl.
  by rewrite (sameLetter_downcase a b Hab), (IH t Hst).
Qed.

Lemma split_cons_form sep (s : string) : ∃ cur rest, split sep s = cur :: rest.
Proof.
  induction s as [|c s (cur & rest & IH)]; simpl; [by eexists _, _|].
  destruct (decide (c = sep)); [by eexists _, _|]. rewrite IH. by eexists _, _.
Qed.

Lemma split_allChars p sep (s : string) :
  allChars p s = true → ∀ piece, piece ∈ split sep s → allChars p piece = true.
Proof.
  induction s as [|c s IH]; simpl.
  - intros _ piece ->%list_elem_of_singleton. done.
  - intros [Hc Hs]%andb_true_iff piece. specialize (IH Hs).
    destruct (decide (c = sep)).
    + intros [->|?]%elem_of_cons; [done|]. by apply IH.
    + destruct (split_cons_form sep s) as (cur & rest & Hsplit). rewrite Hsplit in *.
      intros [->|?]%elem_of_cons.
      * simpl. rewrite Hc. apply IH. by left.
      * apply IH. by right.
Qed.

Lemma split_no_separator sep (s : string) :
  ∀ piece, piece ∈ split sep s →
           allChars (λ c, negb (bool_decide (c = sep))) piece = true.
Proof.
  induction s as [|c s IH]; simpl.
  - intros piece ->%list_elem_of_singleton. done.
  - intros piece. destruct (decide (c = sep)) as [->|Hne].
    + intros [->|?]%elem_of_cons; [done|]. by apply IH.
    + destruct (split_cons_form sep s) as (cur & rest & Hsplit). rewrite Hsplit in *.
      intros [->|?]%elem_of_cons.
      * simpl. rewrite bool_decide_eq_false_2 by done. apply IH. by left.
      * apply IH. by right.
Qed.

Lemma allChars_rev_app p (s : string) :
  ∀ acc, allChars p (String.rev_app s acc) = allChars p s && allChars p acc.
Proof.
  induction s as [|c s IH]; intros acc; [done|]. simpl. rewrite IH. simpl.
  destruct (p c), (allChars p s), (allChars p acc); done.
Qed.

Lemma allChars_dropWhile p q (s : string) :
  allChars p s = true → allChars p (dropWhile q s) = true.
Proof.
  induction s as [|c s IH]; [done|]. simpl. intros [Hc Hs]%andb_true_iff.
  destruct (q c); [by apply IH|]. simpl. by rewrite Hc, Hs.
Qed.

(** ** Properties of the evaluator *)

Lemma exactOk_spec word rules : exactOk word rules = true ↔ exactHolds word rules.
Proof. unfold exactOk, exactHolds. rewrite bool_decide_eq_true. done. Qed.

Lemma absentOk_spec word rules : absentOk word rules = true ↔ absentHolds word rules.
Proof.
  unfold absentOk, absentHolds. rewrite forallb_forall. split.
  - intros H letter Hin Hocc. apply list_elem_of_In in Hin.
    specialize (H letter Hin). apply includes_occursIn in Hocc.
    rewrite Hocc in H. done.
  - intros H letter Hin. apply list_elem_of_In in Hin.
    destruct (includes word letter) eqn:Hinc; [|done].
    apply includes_occursIn in Hinc. by destruct (H letter Hin).
Qed.

Lemma positionsOk_spec word letter positions :
  positionsOk word letter positions = true ↔
  ∀ p, p ∈ positions → charAt word p ≠ Some letter.
Proof.
  unfold positionsOk. rewrite forallb_forall. split.
  - intros H p Hin. apply list_elem_of_In in Hin. specialize (H p Hin).
    apply negb_true_iff, bool_decide_eq_false in H. done.
  - intros H p Hin. apply list_elem_of_In in Hin.
    apply negb_true_iff, bool_decide_eq_false. by apply H.
Qed.

Lemma presentOk_spec word rules : presentOk word rules = true ↔ presentHolds word rules.
Proof.
  unfold presentOk, presentHolds. rewrite bool_decide_eq_true. unfold map_Forall.
  split; intros H letter positions Hl; specialize (H letter positions Hl).
  - by rewrite <- includes_occursIn, <- positionsOk_spec.
  - by rewrite includes_occursIn, positionsOk_spec.
Qed.

(** The verdict in terms of the four checks, for any input string. *)
Lemma checkRules_spec word rules :
  checkRules word rules = true ↔
  lengthHolds (toUpperCase word) rules ∧ exactHolds (toUpperCase word) rules ∧
  absentHolds (toUpperCase word) rules ∧ presentHolds (toUpperCase word) rules.
Proof.
  unfold checkRules, lengthHolds.
  rewrite <- exactOk_spec, <- absentOk_spec, <- presentOk_spec.
  destruct (String.length (toUpperCase word) =? Rules.length rules) eqn:Hlen; simpl.
  - apply Nat.eqb_eq in Hlen.
    destruct (exactOk _ rules), (absentOk _ rules), (presentOk _ rules); simpl;
      intuition congruence.
  - apply Nat.eqb_neq in Hlen. intuition congruence.
Qed.

Lemma rejectedBy_spec word rules :
  let w := toUpperCase word in
  (rejectedBy word rules = None ↔ checkRules word rules = true) ∧
  (rejectedBy word rules = Some LengthCheck ↔ ¬ lengthHolds w rules) ∧
  (rejectedBy word rules = Some ExactCheck ↔
     lengthHolds w rules ∧ ¬ exactHolds w rules) ∧
  (rejectedBy word rules = Some AbsentCheck ↔
     lengthHolds w rules ∧ exactHolds w rules ∧ ¬ absentHolds w rules) ∧
  (rejectedBy word rules = Some PresentCheck ↔
     lengthHolds w rules ∧ exactHolds w rules ∧ absentHolds w rules ∧
     ¬ presentHolds w rules).
Proof.
  simpl. unfold rejectedBy, checkRules, lengthHolds.
  rewrite <- exactOk_spec, <- absentOk_spec, <- presentOk_spec.
  destruct (String.length (toUpperCase word) =? Rules.length rules) eqn:Hlen; simpl.
  - apply Nat.eqb_eq in Hlen.
    destruct (exactOk _ rules), (absentOk _ rules), (presentOk _ rules); simpl;
      intuition congruence.
  - apply Nat.eqb_neq in Hlen. intuition congruence.
Qed.

Lemma checkRules_false_iff_rejected word rules :
  checkRules word rules = false ↔ is_Some (rejectedBy word rules).
Proof.
  destruct (rejectedBy_spec word rules) as [[HNone HTrue] _].
  destruct (checkRules word rules).
  - split; [done|]. intros [c Hc]. rewrite (HTrue eq_refl) in Hc. done.
  - split; [|done]. intros _.
    destruct (rejectedBy word rules); [by eexists|]. by specialize (HNone eq_refl).
Qed.

(** A token that is already upper case is checked as it stands. *)
Lemma checkRules_candidate W R :
  toUpperCase W = W →
  checkRules W R = true ↔
  lengthHolds W R ∧ exactHolds W R ∧ absentHolds W R ∧ presentHolds W R.
Proof. intros HW. rewrite checkRules_spec, HW. done. Qed.

(** The evaluator looks at the upper-cased token only. *)
Lemma checkRules_toUpperCase W W' R :
  toUpperCase W = toUpperCase W' → checkRules W R = checkRules W' R.
Proof. intros H. unfold checkRules. by rewrite H. Qed.

Lemma rejectedBy_toUpperCase W W' R :
  toUpperCase W = toUpperCase W' → rejectedBy W R = rejectedBy W' R.
Proof. intros H. unfold rejectedBy. by rewrite H. Qed.

(** Changing [present] leaves the first three checks alone. *)
Lemma checkRules_setPresent_congr W R letter ps ps' :
  (presentHolds (toUpperCase W) (setPresent letter ps R) ↔
   presentHolds (toUpperCase W) (setPresent letter ps' R)) →
  checkRules W (setPresent letter ps R) = checkRules W (setPresent letter ps' R).
Proof.
  intros H. unfold checkRules. simpl.
  change (exactOk (toUpperCase W) (setPresent letter ps R))
    with (exactOk (toUpperCase W) (setPresent letter ps' R)).
  change (absentOk (toUpperCase W) (setPresent letter ps R))
    with (absentOk (toUpperCase W) (setPresent letter ps' R)).
  rewrite <- !presentOk_spec in H.
  destruct (presentOk _ (setPresent letter ps R)),
           (presentOk _ (setPresent letter ps' R)); try done.
  - destruct H as [H _]. by specialize (H eq_refl).
  - destruct H as [_ H]. by specialize (H eq_refl).
Qed.

Lemma presentHolds_drop_out_of_range W R letter positions :
  presentHolds W (setPresent letter positions R) ↔
  presentHolds W (setPresent letter (filter (λ p, p < String.length W) positions) R).
Proof.
  unfold presentHolds. simpl.
  split; intros H l ps Hl.
  - destruct (decide (letter = l)) as [->|Hne].
    + rewrite lookup_insert_eq in Hl. injection Hl as <-.
      destruct (H l positions) as [Hocc Hpos]; [by rewrite lookup_insert_eq|].
      split; [done|]. intros p Hp. apply list_elem_of_filter in Hp as [_ Hp]. by apply Hpos.
    + rewrite lookup_insert_ne in Hl by done. apply (H l ps).
      by rewrite lookup_insert_ne.
  - destruct (decide (letter = l)) as [->|Hne].
    + rewrite lookup_insert_eq in Hl. injection Hl as <-.
      destruct (H l (filter (λ p, p < String.length W) positions)) as [Hocc Hpos];
        [by rewrite lookup_insert_eq|].
      split; [done|]. intros p Hp.
      destruct (decide (p < String.length W)) as [Hlt|Hge].
      * apply Hpos. by apply list_elem_of_filter.
      * rewrite charAt_past_end by lia. done.
    + rewrite lookup_insert_ne in Hl by done. apply (H l ps).
      by rewrite lookup_insert_ne.
Qed.

(** ** Properties of the validator *)

Lemma validateWordExistence_hit fetch W N known v :
  known !! cacheKey (toLowerCase W) N = Some v →
  validateWordExistence fetch W N known =
  {| verdict := v; cache := known; requests := [] |}.
Proof. intros H. unfold validateWordExistence. by rewrite H. Qed.

(** After a lookup the cache holds the verdict under the word's key. *)
Lemma validateWordExistence_records fetch W N known :
  let r := validateWordExistence fetch W N known in
  cache r !! cacheKey (toLowerCase W) N = Some (verdict r).
Proof.
  simpl. unfold validateWordExistence.
  destruct (known !! cacheKey (toLowerCase W) N) eqn:Hk; simpl; [done|].
  destruct (negb _); simpl; [by rewrite lookup_insert_eq|].
  destruct (fetch _) as [status statusText body|name message]; simpl.
  - destruct (ok status); simpl; [by rewrite lookup_insert_eq|].
    destruct (status =? 404); simpl; by rewrite lookup_insert_eq.
  - by rewrite lookup_insert_eq.
Qed.

(** The lookup reads the word through [toLowerCase] only. *)
Lemma validateWordExistence_toLowerCase fetch W W' N known :
  toLowerCase W = toLowerCase W' →
  validateWordExistence fetch W N known = validateWordExistence fetch W' N known.
Proof. intros H. unfold validateWordExistence. by rewrite H. Qed.

(** ** Properties of the request executor *)

(** The delays [d], [2d], [4d], ... waited before [k] retries. *)
Lemma attemptLoop_backoff fetch url :
  ∀ remaining i delay waited,
    0 < remaining →
    let call := attemptLoop fetch url remaining i delay waited in
    ∃ k, k < remaining ∧ attempts call = i + k + 1 ∧
         waits call = waited ++ ((λ j, delay * 2 ^ j) <$> seq 0 k).
Proof.
  induction remaining as [|remaining IH]; intros i delay waited Hpos; [lia|].
  assert (Hretry : remaining ≠ 0 →
    ∃ k, k < S remaining ∧
      attempts (attemptLoop fetch url remaining (S i) (delay * 2) (waited ++ [delay])) = i + k + 1 ∧
      waits (attemptLoop fetch url remaining (S i) (delay * 2) (waited ++ [delay])) =
        waited ++ ((λ j, delay * 2 ^ j) <$> seq 0 k)).
  { intros Hne. destruct (IH (S i) (delay * 2) (waited ++ [delay])) as (k & Hk & Ha & Hw); [lia|].
    exists (S k). split; [lia|]. split; [lia|]. rewrite Hw, <- app_assoc.
    f_equal. cbn [seq fmap list_fmap app]. f_equal; [simpl; lia|].
    rewrite <- (fmap_S_seq 0 k), <- list_fmap_compose.
    apply list_fmap_ext. intros _ j _. simpl. lia. }
  assert (Hstop : ∀ res,
    ∃ k, k < S remaining ∧
      attempts {| result := res; attempts := S i; waits := waited |} = i + k + 1 ∧
      waits {| result := res; attempts := S i; waits := waited |} =
        waited ++ ((λ j, delay * 2 ^ j) <$> seq 0 k)).
  { intros res. exists 0. simpl. rewrite app_nil_r. repeat split; lia. }
  simpl. destruct (fetch i url) as [status statusText body|name message].
  - destruct (ok status).
    + destruct body; [|apply Hstop..].
      destruct (remaining =? 0) eqn:H0; [apply Hstop|].
      apply Hretry. by apply Nat.eqb_neq.
    + destruct (remaining =? 0) eqn:H0.
      * rewrite andb_false_r. destruct body; apply Hstop.
      * apply Nat.eqb_neq in H0.
        destruct (status =? 429); simpl; [by apply Hretry|].
        destruct body; by apply Hretry.
  - destruct (remaining =? 0) eqn:H0; [apply Hstop|].
    apply Hretry. by apply Nat.eqb_neq.
Qed.

(** Short of the last attempt, a failed request of any kind is followed
    by a wait of [delay] and a further attempt with the delay doubled. *)
Lemma attemptLoop_retries_every_failure fetch url remaining i delay waited :
  (match fetch i url with
   | Response status _ _ => ok status = false
   | Rejects _ _ => True
   end) →
  attemptLoop fetch url (S (S remaining)) i delay waited =
  attemptLoop fetch url (S remaining) (S i) (delay * 2) (waited ++ [delay]).
Proof.
  intros H. cbn [attemptLoop]. destruct (fetch i url) as [status statusText body|name message].
  - rewrite H. cbn [Nat.eqb negb andb]. rewrite andb_true_r.
    destruct (status =? 429); [done|]. by destruct body.
  - done.
Qed.

(** ** Properties of the collector *)

Lemma pageLoop_trace fetch baseUrl n :
  ∀ fuel p ws req,
    ∃ k, k ≤ fuel ∧ fetchedPages (pageLoop fetch baseUrl n fuel p ws req) = req ++ seq p k.
Proof.
  induction fuel as [|fuel IH]; intros p ws req.
  - exists 0. simpl. by rewrite app_nil_r.
  - assert (Hend : ∀ c, ∃ k, k ≤ S fuel ∧
        fetchedPages {| collected := c; fetchedPages := req ++ [p] |} = req ++ seq p k).
    { intros c. exists 1. split; [lia|done]. }
    cbn [pageLoop]. destruct (fetch _) as [status statusText body|name message]; [|apply Hend].
    destruct (negb (ok status)).
    { destruct (_ && _); apply Hend. }
    destruct body as [html|]; [|apply Hend].
    destruct (extractWordsFromHtml html n) as [pw|]; [|apply Hend].
    destruct (chainsTo _ p); [|apply Hend].
    destruct (IH (p + 1) (ws ++ pw) (req ++ [p])) as (k & Hk & Hf).
    exists (S k). split; [lia|]. rewrite Hf, <- app_assoc. simpl.
    by rewrite Nat.add_1_r.
Qed.

Lemma chainsTo_spec next p : chainsTo next p = true ↔ next = Some (p + 1).
Proof.
  unfold chainsTo. destruct next as [m|]; [|done].
  rewrite andb_true_iff, negb_true_iff, Nat.eqb_neq, Nat.eqb_eq.
  split; [intros [_ ->]; done|]. intros [= ->]. lia.
Qed.

(** One turn of the loop on a page that arrived and was read. *)
Lemma pageLoop_step fetch baseUrl n fuel p ws req status statusText html pw :
  fetch (pageUrlOf baseUrl p) = Response status statusText (Some html) →
  ok status = true →
  extractWordsFromHtml html n = Some pw →
  pageLoop fetch baseUrl n (S fuel) p ws req =
  if chainsTo (getNextPageNumber html) p
  then pageLoop fetch baseUrl n fuel (p + 1) (ws ++ pw) (req ++ [p])
  else {| collected := Finished (uniqueWords (ws ++ pw)); fetchedPages := req ++ [p] |}.
Proof. intros Hf Hok Hex. cbn [pageLoop]. by rewrite Hf, Hok, Hex. Qed.

(** A page other than the one the loop starts with is requested only
    after its predecessor declared it as the next page. *)
Lemma pageLoop_only_declared fetch baseUrl n :
  ∀ fuel p ws req k,
    S k ∈ fetchedPages (pageLoop fetch baseUrl n fuel p ws req) →
    S k ∉ req → p ≤ k →
    ∃ status statusText html,
      fetch (pageUrlOf baseUrl k) = Response status statusText (Some html) ∧
      ok status = true ∧ getNextPageNumber html = Some (S k).
Proof.
  induction fuel as [|fuel IH]; intros p ws req k Hin Hreq Hle; [done|].
  assert (Hend : ∀ c, S k ∉ fetchedPages {| collected := c; fetchedPages := req ++ [p] |}).
  { intros c. simpl. rewrite elem_of_app, list_elem_of_singleton. intros [?|?]; [done|lia]. }
  cbn [pageLoop] in Hin.
  destruct (fetch (pageUrlOf baseUrl p)) as [status statusText body|name message] eqn:Hf;
    [|by apply Hend in Hin].
  destruct (ok status) eqn:Hok; cbn [negb] in Hin.
  2:{ destruct (_ && _); by apply Hend in Hin. }
  destruct body as [html|]; [|by apply Hend in Hin].
  destruct (extractWordsFromHtml html n) as [pw|]; [|by apply Hend in Hin].
  destruct (chainsTo _ p) eqn:Hch; [|by apply Hend in Hin].
  apply chainsTo_spec in Hch.
  destruct (decide (k = p)) as [->|Hne].
  - exists status, statusText, html. rewrite Hch. repeat split; try done.
    f_equal. lia.
  - apply (IH (p + 1) (ws ++ pw) (req ++ [p]) k Hin); [|lia].
    rewrite elem_of_app, list_elem_of_singleton. intros [?|?]; [done|lia].
Qed.

Lemma wordsOfPages_cons fetch pageUrl n p count :
  wordsOfPages fetch pageUrl n p (S count) =
  pageWordsAt fetch pageUrl n p ++ wordsOfPages fetch pageUrl n (S p) count.
Proof. done. Qed.

(** The result of a run in which page [k] was requested and failed. *)
Lemma pageLoop_failure fetch baseUrl n k :
  ∀ fuel p ws req,
    k ∈ fetchedPages (pageLoop fetch baseUrl n fuel p ws req) → k ∉ req →
    (match fetch (pageUrlOf baseUrl k) with
     | Response status _ body => ok status = false ∨ body = None
     | Rejects _ _ => True
     end) →
    collected (pageLoop fetch baseUrl n fuel p ws req) =
    match fetch (pageUrlOf baseUrl k) with
    | Response status _ _ =>
        if negb (ok status) && (status =? 404) && (1 <? k)
        then Finished (uniqueWords (ws ++ wordsOfPages fetch (pageUrlOf baseUrl) n p (k - p)))
        else Finished []
    | Rejects _ _ => Finished []
    end.
Proof.
  induction fuel as [|fuel IH]; intros p ws req Hin Hreq Hfail; [done|].
  destruct (decide (k = p)) as [->|Hne].
  - clear Hin IH. cbn [pageLoop].
    destruct (fetch (pageUrlOf baseUrl p)) as [status statusText body|name message]; [|done].
    replace (p - p) with 0 by lia. unfold wordsOfPages. simpl. rewrite app_nil_r.
    destruct (ok status) eqn:Hok; simpl.
    + destruct Hfail as [?| ->]; done.
    + by destruct (_ && _).
  - assert (Hend : ∀ c, k ∉ fetchedPages {| collected := c; fetchedPages := req ++ [p] |}).
    { intros c. simpl. rewrite elem_of_app, list_elem_of_singleton. intros [?|?]; done. }
    cbn [pageLoop] in Hin |- *.
    destruct (fetch (pageUrlOf baseUrl p)) as [status statusText body|name message] eqn:Hf;
      [|by apply Hend in Hin].
    destruct (ok status) eqn:Hok; cbn [negb] in Hin |- *.
    2:{ destruct (_ && _); by apply Hend in Hin. }
    destruct body as [html|]; [|by apply Hend in Hin].
    destruct (extractWordsFromHtml html n) as [pw|] eqn:Hex; [|by apply Hend in Hin].
    destruct (chainsTo _ p) eqn:Hch; [|by apply Hend in Hin].
    assert (Hlt : p < k).
    { destruct (pageLoop_trace fetch baseUrl n fuel (p + 1) (ws ++ pw) (req ++ [p]))
        as (m & _ & Htr).
      rewrite Htr in Hin. rewrite !elem_of_app, list_elem_of_singleton in Hin.
      destruct Hin as [[?|?]|Hin]; [done..|]. apply elem_of_seq in Hin. lia. }
    rewrite (IH (p + 1) (ws ++ pw) (req ++ [p]) Hin); [|
      rewrite elem_of_app, list_elem_of_singleton; intros [?|?]; done | done].
    replace (k - p) with (S (k - (p + 1))) by lia.
    assert (Hpw : pageWordsAt fetch (pageUrlOf baseUrl) n p = pw).
    { unfold pageWordsAt. by rewrite Hf, Hex. }
    rewrite wordsOfPages_cons, Hpw, <- app_assoc, Nat.add_1_r. done.
Qed.


(** ** Properties of the fetch prototype *)

Lemma urlLoop_trace fetch baseUrl n :
  ∀ fuel p ws req,
    ∃ k, k ≤ fuel ∧ fetchedPages (urlLoop fetch baseUrl n fuel p ws req) = req ++ seq p k.
Proof.
  induction fuel as [|fuel IH]; intros p ws req.
  - exists 0. simpl. by rewrite app_nil_r.
  - assert (Hend : ∀ c, ∃ k, k ≤ S fuel ∧
        fetchedPages {| collected := c; fetchedPages := req ++ [p] |} = req ++ seq p k).
    { intros c. exists 1. split; [lia|done]. }
    cbn [urlLoop]. destruct (fetch _) as [status statusText body|name message]; [|apply Hend].
    destruct (negb (ok status)).
    { destruct (_ && _); apply Hend. }
    destruct body as [html|]; [|apply Hend].
    destruct (extractWordsFromHtml html n) as [pw|]; [|apply Hend].
    destruct (chainsTo _ p); [|apply Hend].
    destruct (IH (p + 1) (ws ++ pw) (req ++ [p])) as (k & Hk & Hf).
    exists (S k). split; [lia|]. rewrite Hf, <- app_assoc. simpl.
    by rewrite Nat.add_1_r.
Qed.

(** The same for the loop of the prototype. *)
Lemma urlLoop_failure fetch baseUrl n k :
  ∀ fuel p ws req,
    k ∈ fetchedPages (urlLoop fetch baseUrl n fuel p ws req) → k ∉ req →
    (match fetch (prototypeUrlOf baseUrl k) with
     | Response status _ body => ok status = false ∨ body = None
     | Rejects _ _ => True
     end) →
    collected (urlLoop fetch baseUrl n fuel p ws req) =
    match fetch (prototypeUrlOf baseUrl k) with
    | Response status _ _ =>
        if negb (ok status) && (status =? 404) && (1 <? k)
        then Finished (ws ++ wordsOfPages fetch (prototypeUrlOf baseUrl) n p (k - p))
        else Finished []
    | Rejects _ _ => Finished []
    end.
Proof.
  induction fuel as [|fuel IH]; intros p ws req Hin Hreq Hfail; [done|].
  destruct (decide (k = p)) as [->|Hne].
  - clear Hin IH. cbn [urlLoop].
    destruct (fetch (prototypeUrlOf baseUrl p)) as [status statusText body|name message]; [|done].
    replace (p - p) with 0 by lia. unfold wordsOfPages. simpl. rewrite app_nil_r.
    destruct (ok status) eqn:Hok; simpl.
    + destruct Hfail as [?| ->]; done.
    + by destruct (_ && _).
  - assert (Hend : ∀ c, k ∉ fetchedPages {| collected := c; fetchedPages := req ++ [p] |}).
    { intros c. simpl. rewrite elem_of_app, list_elem_of_singleton. intros [?|?]; done. }
    cbn [urlLoop] in Hin |- *.
    destruct (fetch (prototypeUrlOf baseUrl p)) as [status statusText body|name message] eqn:Hf;
      [|by apply Hend in Hin].
    destruct (ok status) eqn:Hok; cbn [negb] in Hin |- *.
    2:{ destruct (_ && _); by apply Hend in Hin. }
    destruct body as [html|]; [|by apply Hend in Hin].
    destruct (extractWordsFromHtml html n) as [pw|] eqn:Hex; [|by apply Hend in Hin].
    destruct (chainsTo _ p) eqn:Hch; [|by apply Hend in Hin].
    assert (Hlt : p < k).
    { destruct (urlLoop_trace fetch baseUrl n fuel (p + 1) (ws ++ pw) (req ++ [p]))
        as (m & _ & Htr).
      rewrite Htr in Hin. rewrite !elem_of_app, list_elem_of_singleton in Hin.
      destruct Hin as [[?|?]|Hin]; [done..|]. apply elem_of_seq in Hin. lia. }
    rewrite (IH (p + 1) (ws ++ pw) (req ++ [p]) Hin); [|
      rewrite elem_of_app, list_elem_of_singleton; intros [?|?]; done | done].
    replace (k - p) with (S (k - (p + 1))) by lia.
    assert (Hpw : pageWordsAt fetch (prototypeUrlOf baseUrl) n p = pw).
    { unfold pageWordsAt. by rewrite Hf, Hex. }
    rewrite wordsOfPages_cons, Hpw, <- app_assoc, Nat.add_1_r. done.
Qed.

(** ** Properties of the rule compiler *)

Lemma stripPrefix_Some (p : string) : ∀ s rest, stripPrefix p s = Some rest → s = p +:+ rest.
Proof.
  induction p as [|a p IH]; intros s rest H; simpl in *; [by injection H as ->|].
  destruct s as [|b s]; [done|]. destruct (decide (a = b)) as [->|]; [|done].
  by rewrite (IH s rest H).
Qed.

Lemma span_allChars p (s : string) : allChars p s = true → span p s = (s, EmptyString).
Proof.
  induction s as [|c s IH]; simpl; [done|].
  intros [Hc Hs]%andb_true_iff. by rewrite Hc, (IH Hs).
Qed.

Lemma isDigit_not_space c : isDigit c = true → isSpace c = false.
Proof.
  unfold isDigit, isSpace. rewrite inRange_spec. intros H.
  apply orb_false_iff. split.
  - apply not_true_iff_false. rewrite inRange_spec. lia.
  - apply Nat.eqb_neq. lia.
Qed.

(** On a non-empty run of digits [parseInt] reads the decimal value. *)
Lemma parseNat_digits (digits : string) :
  nonEmpty digits = true → allChars isDigit digits = true →
  parseNat digits = decimal digits.
Proof.
  destruct digits as [|c ds]; [done|]. intros _ Hall.
  pose proof Hall as [Hc _]%andb_true_iff.
  unfold parseNat, parseInt, trimStart. cbn [dropWhile].
  rewrite (isDigit_not_space c Hc).
  destruct (bool_decide (c = "-"%char)) eqn:Hm.
  { apply bool_decide_eq_true in Hm. subst c. done. }
  destruct (bool_decide (c = "+"%char)) eqn:Hp.
  { apply bool_decide_eq_true in Hp. subst c. done. }
  unfold parseDigits. rewrite (span_allChars _ _ Hall). simpl.
  by rewrite Nat2Z.id.
Qed.

Lemma digitValue_bound c : isDigit c = true → digitValue c ≤ 9.
Proof. unfold isDigit, digitValue. rewrite inRange_spec. lia. Qed.

Lemma exactMatch_shape line letter digit :
  exactMatch line = Some (letter, digit) →
  ∃ d, line = String letter (" AT " +:+ String d EmptyString) ∧
       digit = String d EmptyString ∧ isUpper letter = true ∧ isDigit d = true.
Proof.
  destruct line as [|c rest]; [done|]. unfold exactMatch.
  destruct (isUpper c) eqn:Hc; [|done].
  destruct (stripPrefix " AT " rest) as [[|d [|d' rest']]|] eqn:Hs; try done.
  destruct (isDigit d) eqn:Hd; [|done]. intros [= <- <-].
  exists d. by rewrite (stripPrefix_Some _ _ _ Hs).
Qed.

(** A line of the shape [<c> AT ...] matches none of the later patterns. *)
Lemma laterPatterns_at_line rules c rest :
  laterPatterns rules (String c (" AT " +:+ rest)) = rules.
Proof.
  unfold laterPatterns.
  assert (absentMatch (String c (" AT " +:+ rest)) = None) as ->.
  { unfold absentMatch. simpl. by destruct (decide _). }
  assert (presentMatch (String c (" AT " +:+ rest)) = None) as ->.
  { unfold presentMatch. by destruct (isUpper c). }
  assert (lengthMatch (String c (" AT " +:+ rest)) = None) as ->.
  { unfold lengthMatch. simpl. by destruct (decide _). }
  done.
Qed.

(** An exact-position line whose position is not within 1..9 changes
    nothing. *)
Lemma parseLine_position_dropped rules c digits :
  ¬ (1 ≤ parseNat digits ≤ 9) →
  parseLine rules (String c (" AT " +:+ digits)) = rules.
Proof.
  intros Hout. unfold parseLine.
  destruct (exactMatch _) as [[letter digit]|] eqn:He; [|apply laterPatterns_at_line].
  apply exactMatch_shape in He as (d & Hline & -> & _ & _).
  injection Hline as _ Hd. change (digits = String d EmptyString) in Hd. subst digits.
  cbv zeta.
  destruct (_ && _) eqn:Hin; [|apply laterPatterns_at_line].
  apply andb_true_iff in Hin as [H1%Nat.leb_le H9%Nat.leb_le]. lia.
Qed.

Lemma parseLines_app lines1 lines2 rules :
  parseLines (lines1 ++ lines2) rules = parseLines lines2 (parseLines lines1 rules).
Proof. apply fold_left_app. Qed.

Lemma parseLines_skip pre line post rules :
  (∀ r, parseLine r line = r) →
  parseLines (pre ++ line :: post) rules = parseLines (pre ++ post) rules.
Proof.
  intros H. rewrite !parseLines_app. unfold parseLines at 1. simpl.
  by rewrite H.
Qed.

Lemma laterPatterns_exact rules line :
  Rules.exact (laterPatterns rules line) = Rules.exact rules.
Proof.
  unfold laterPatterns.
  by destruct (absentMatch line), (presentMatch line), (lengthMatch line).
Qed.

(** Where an entry of [exact] comes from. *)
Lemma parseLine_exact rules line p letter :
  Rules.exact (parseLine rules line) !! p = Some letter →
  Rules.exact rules !! p = Some letter ∨
  ∃ digit, exactMatch line = Some (letter, digit) ∧ parseNat digit = S p ∧ 1 ≤ S p ≤ 9.
Proof.
  unfold parseLine.
  destruct (exactMatch line) as [[l digit]|]; [|rewrite laterPatterns_exact; auto].
  cbv zeta. destruct (_ && _) eqn:Hin; [|rewrite laterPatterns_exact; auto].
  apply andb_true_iff in Hin as [H1%Nat.leb_le H9%Nat.leb_le]. simpl.
  destruct (decide (parseNat digit - 1 = p)) as [<-|Hne].
  - rewrite lookup_insert_eq. intros [= <-]. right. exists digit.
    split; [done|]. lia.
  - rewrite lookup_insert_ne by done. auto.
Qed.

Lemma parseLines_exact lines :
  ∀ rules p letter,
    Rules.exact (parseLines lines rules) !! p = Some letter →
    Rules.exact rules !! p = Some letter ∨
    ∃ line digit, line ∈ lines ∧ exactMatch line = Some (letter, digit) ∧
                  parseNat digit = S p ∧ 1 ≤ S p ≤ 9.
Proof.
  induction lines as [|line lines IH]; intros rules p letter H; [by left|].
  change (parseLines (line :: lines) rules) with (parseLines lines (parseLine rules line)) in H.
  destruct (IH _ _ _ H) as [H0|(l & d & Hin & Hm)].
  - destruct (parseLine_exact _ _ _ _ H0) as [?|(d & Hm)]; [by left|].
    right. exists line, d. split; [apply elem_of_cons; by left|done].
  - right. exists l, d. split; [apply elem_of_cons; by right|done].
Qed.

Lemma laterPatterns_present rules line letter positions :
  Rules.present (laterPatterns rules line) !! letter = Some positions →
  Rules.present rules !! letter = Some positions ∨
  (presentMatch line = Some letter ∧ positions = positionsOfLine line).
Proof.
  unfold laterPatterns. destruct (absentMatch line); [auto|].
  destruct (presentMatch line) as [l|]; [|destruct (lengthMatch line); auto].
  simpl. destruct (decide (l = letter)) as [->|Hne].
  - rewrite lookup_insert_eq. intros [= <-]. auto.
  - rewrite lookup_insert_ne by done. auto.
Qed.

Lemma parseLine_present rules line letter positions :
  Rules.present (parseLine rules line) !! letter = Some positions →
  Rules.present rules !! letter = Some positions ∨
  (presentMatch line = Some letter ∧ positions = positionsOfLine line).
Proof.
  unfold parseLine. destruct (exactMatch line) as [[l digit]|];
    [|apply laterPatterns_present].
  cbv zeta. destruct (_ && _); [auto|apply laterPatterns_present].
Qed.

Lemma parseLines_present lines :
  ∀ rules letter positions,
    Rules.present (parseLines lines rules) !! letter = Some positions →
    Rules.present rules !! letter = Some positions ∨
    ∃ line, line ∈ lines ∧ presentMatch line = Some letter ∧
            positions = positionsOfLine line.
Proof.
  induction lines as [|line lines IH]; intros rules letter positions H; [by left|].
  change (parseLines (line :: lines) rules) with (parseLines lines (parseLine rules line)) in H.
  destruct (IH _ _ _ H) as [H0|(l & Hin & Hm)].
  - destruct (parseLine_present _ _ _ _ H0) as [?|Hm]; [by left|].
    right. exists line. split; [apply elem_of_cons; by left|done].
  - right. exists l. split; [apply elem_of_cons; by right|done].
Qed.

Lemma lengthTail_digits (s : string) :
  ∀ digits, lengthTail s = Some digits →
            nonEmpty digits = true ∧ allChars isDigit digits = true.
Proof.
  assert (Hd : ∀ (t digits : string),
    (if nonEmpty t && allChars isDigit t then Some t else None) = Some digits →
    nonEmpty digits = true ∧ allChars isDigit digits = true).
  { intros t digits. destruct (_ && _) eqn:H; [|done]. intros [= <-].
    by apply andb_true_iff in H. }
  induction s as [|c s IH]; intros digits; [done|]. cbn [lengthTail].
  destruct (isSpace c); [|apply Hd].
  destruct (lengthTail s) as [g|]; [|apply Hd].
  intros [= <-]. by apply IH.
Qed.

Lemma lengthMatch_shape line digits :
  lengthMatch line = Some digits →
  (∃ rest, line = "LENGTH:" +:+ rest) ∧
  nonEmpty digits = true ∧ allChars isDigit digits = true.
Proof.
  unfold lengthMatch. destruct (stripPrefix "LENGTH:" line) as [rest|] eqn:Hs; [|done].
  simpl. intros H. split; [|by apply (lengthTail_digits rest)].
  exists rest. by apply stripPrefix_Some.
Qed.

(** The length of the rule set after one line. *)
Lemma parseLine_length rules line :
  Rules.length (parseLine rules line) =
  match lengthMatch line with
  | Some digits => parseNat digits
  | None => Rules.length rules
  end.
Proof.
  destruct (lengthMatch line) as [digits|] eqn:Hl.
  - destruct (lengthMatch_shape _ _ Hl) as [[rest ->] _].
    unfold parseLine, laterPatterns. rewrite Hl. done.
  - unfold parseLine, laterPatterns. rewrite Hl.
    destruct (exactMatch line) as [[l d]|]; cbv zeta;
      [destruct (_ && _)|]; try done;
      by destruct (absentMatch line), (presentMatch line).
Qed.

Lemma parseLines_length lines :
  ∀ rules, Rules.length (parseLines lines rules) =
           default (Rules.length rules) (declaredLength lines).
Proof.
  unfold declaredLength.
  induction lines as [|line lines IH]; intros rules; [done|].
  change (parseLines (line :: lines) rules) with (parseLines lines (parseLine rules line)).
  rewrite IH, parseLine_length. cbn [omap list_omap].
  destruct (lengthMatch line) as [digits|]; simpl; [|done].
  rewrite last_cons. by destruct (last _).
Qed.

(** * The embedding on the scenarios of the specification *)

Example sampleRules_compiled :
  Rules.exact sampleRules = {[2 := "O"%char]} ∧
  Rules.present sampleRules = {["A"%char := []]} ∧
  Rules.absent sampleRules = ["S"; "T"; "R"; "E"]%char ∧
  Rules.length sampleRules = 5.
Proof. repeat split; vm_compute; reflexivity. Qed.

Example sampleRules_verdicts :
  checkRules "AMONG" sampleRules = true ∧
  checkRules "among" sampleRules = true ∧
  rejectedBy "STORE" sampleRules = Some AbsentCheck ∧
  rejectedBy "GROAN" sampleRules = Some AbsentCheck ∧
  rejectedBy "ABOUND" sampleRules = Some LengthCheck.
Proof. repeat split; vm_compute; reflexivity. Qed.

Example disallowed_positions_compiled :
  Rules.present (parseRules "A in word, not at 1, 2, 3") !! "A"%char = Some [0; 1; 2] ∧
  checkRules "TITAN" (parseRules "A in word, not at 1, 2, 3") = true ∧
  rejectedBy "ABOUT" (parseRules "A in word, not at 1, 2, 3") = Some PresentCheck.
Proof. repeat split; vm_compute; reflexivity. Qed.

Example unrecognised_lines_ignored :
  parseRules (unlines ["hello"; "O AT 10"; "X AT 0"; ""; "LENGTH: five"]) = defaultRules.
Proof. vm_compute. reflexivity. Qed.

Example samplePage1_read :
  extractWordsFromHtml samplePage1 5 = Some ["ABODE"; "AMONG"; "ABODE"] ∧
  getNextPageNumber samplePage1 = Some 2 ∧
  getNextPageNumber samplePage2 = None ∧
  extractWordsFromHtml samplePage1 0 = None.
Proof. repeat split; vm_compute; reflexivity. Qed.

Example two_pages_collected :
  fetchWordListByPosition twoPages sampleRules 7 =
  {| collected := Finished ["ABODE"; "AMONG"; "ADOPT"]; fetchedPages := [1; 2] |}.
Proof. vm_compute. reflexivity. Qed.

Example rate_limit_then_timeout_then_success :
  handleGeminiApiCall
    (λ i _, match i with
            | 0 => Response 429 "Too Many Requests" (NotJson "Unexpected token")
            | 1 => Rejects "AbortError" "This operation was aborted"
            | _ => Response 200 "OK" (JsonObject samplePayload)
            end) "key" 5 1000 =
  {| result := Returns (Some samplePayload); attempts := 3; waits := [1000; 2000] |}.
Proof. vm_compute. reflexivity. Qed.

Example retries_exhausted_by_timeouts :
  handleGeminiApiCall (λ _ _, Rejects "AbortError" "This operation was aborted") "key" 3 1000 =
  {| result := Throws "Gemini API call timed out after 20 seconds.";
     attempts := 3; waits := [1000; 2000] |}.
Proof. vm_compute. reflexivity. Qed.

(** * The evaluator *)

(** C1.  For a candidate token [W] (a token in upper case, which
    [toUpperCase] leaves as it is) and any rule set [R], [checkRules]
    accepts [W] exactly when the four checks hold: the length of [W] is
    [R.length]; [W] has the required letter at every position of
    [R.exact]; no letter of [R.absent] occurs in [W]; every key [L] of
    [R.present] occurs in [W] and not at a position listed under [L].
    The checks are applied in this order: the [return false] that ends a
    rejected call belongs to the first check that fails, so each check
    rejects on its own.  The verdict is a function of [W] and [R] alone:
    [checkRules] has no other argument and reads no store. *)
Theorem checkRules_accepts_iff_four_checks (W : string) (R : WordleRules) :
  toUpperCase W = W →
  (checkRules W R = true ↔
     lengthHolds W R ∧ exactHolds W R ∧ absentHolds W R ∧ presentHolds W R) ∧
  (rejectedBy W R = Some LengthCheck ↔ ¬ lengthHolds W R) ∧
  (rejectedBy W R = Some ExactCheck ↔ lengthHolds W R ∧ ¬ exactHolds W R) ∧
  (rejectedBy W R = Some AbsentCheck ↔
     lengthHolds W R ∧ exactHolds W R ∧ ¬ absentHolds W R) ∧
  (rejectedBy W R = Some PresentCheck ↔
     lengthHolds W R ∧ exactHolds W R ∧ absentHolds W R ∧ ¬ presentHolds W R) ∧
  (checkRules W R = false ↔ is_Some (rejectedBy W R)).
Proof.
  intros HW. split; [by apply checkRules_candidate|].
  pose proof (rejectedBy_spec W R) as H. simpl in H. rewrite HW in H.
  destruct H as (_ & H1 & H2 & H3 & H4).
  repeat split; try tauto; apply checkRules_false_iff_rejected.
Qed.

Lemma checkRules_accepts_AMONG :
  toUpperCase "AMONG" = "AMONG" ∧
  (checkRules "AMONG" sampleRules = true ↔
     lengthHolds "AMONG" sampleRules ∧ exactHolds "AMONG" sampleRules ∧
     absentHolds "AMONG" sampleRules ∧ presentHolds "AMONG" sampleRules).
Proof.
  split; [reflexivity|].
  apply (checkRules_accepts_iff_four_checks "AMONG" sampleRules). reflexivity.
Defined.

(** C8, as amended.  When a letter [L] is listed in [R.absent] and is a
    key of [R.present], every token is rejected.  A token that contains
    [L] is never rejected by the presence check: its rejection comes from
    the length check, the exact-position check or the absence check, and
    from the absence check once the first two pass. *)
Theorem absent_and_present_letter_rejects (W : string) (R : WordleRules) (L : ascii) :
  L ∈ Rules.absent R → is_Some (Rules.present R !! L) →
  checkRules W R = false ∧
  (occursIn L (toUpperCase W) →
     rejectedBy W R ≠ Some PresentCheck ∧
     (rejectedBy W R = Some LengthCheck ∨ rejectedBy W R = Some ExactCheck ∨
      rejectedBy W R = Some AbsentCheck) ∧
     (lengthHolds (toUpperCase W) R → exactHolds (toUpperCase W) R →
      rejectedBy W R = Some AbsentCheck)).
Proof.
  intros Habs [ps Hps].
  assert (Hfalse : checkRules W R = false).
  { apply not_true_iff_false. rewrite checkRules_spec.
    intros (_ & _ & Ha & Hp). destruct (Hp L ps Hps) as [Hocc _].
    by apply (Ha L Habs). }
  split; [done|]. intros Hocc.
  assert (Hna : ¬ absentHolds (toUpperCase W) R) by (intros Ha; by apply (Ha L Habs)).
  destruct (rejectedBy_spec W R) as (_ & H1 & H2 & H3 & H4). simpl in *.
  apply checkRules_false_iff_rejected in Hfalse as [c Hc].
  split; [|split].
  - intros Hpc. apply H4 in Hpc. tauto.
  - destruct c; auto. apply H4 in Hc. tauto.
  - intros Hl He. apply H3. tauto.
Qed.

Lemma absent_and_present_letter_rejects_BRACE :
  checkRules "BRACE" conflictRules = false ∧
  rejectedBy "BRACE" conflictRules = Some AbsentCheck.
Proof.
  assert (Habs : "A"%char ∈ Rules.absent conflictRules).
  { decide_by_compute. }
  assert (Hpres : is_Some (Rules.present conflictRules !! "A"%char)).
  { decide_by_compute. }
  destruct (absent_and_present_letter_rejects "BRACE" conflictRules "A"%char Habs Hpres)
    as [Hrej Hwhy].
  split; [exact Hrej|].
  assert (Hocc : occursIn "A"%char (toUpperCase "BRACE")) by (exists 2; reflexivity).
  destruct (Hwhy Hocc) as (_ & _ & Habsent). apply Habsent.
  - reflexivity.
  - apply exactOk_spec. vm_compute. reflexivity.
Defined.

(** C8 as stated fails: the token BEACH contains the letter A, which the
    compiled rule set lists as absent and as present, and is rejected by
    the exact-position check, before the absence check is reached. *)
Lemma conflict_rejected_before_absence_check :
  "A"%char ∈ Rules.absent conflictRules ∧
  is_Some (Rules.present conflictRules !! "A"%char) ∧
  occursIn "A"%char "BEACH" ∧
  rejectedBy "BEACH" conflictRules = Some ExactCheck ∧
  rejectedBy "BEACH" conflictRules ≠ Some AbsentCheck.
Proof.
  split; [decide_by_compute|].
  split; [decide_by_compute|].
  split; [exists 2; reflexivity|].
  assert (H : rejectedBy "BEACH" conflictRules = Some ExactCheck)
    by (vm_compute; reflexivity).
  split; [exact H|]. rewrite H. discriminate.
Qed.

(** C10.  [checkRules] returns a verdict for every rule set.  A position
    of [R.exact] at or beyond [R.length] makes it reject every token.  A
    disallowed position at or beyond the token's length never rejects:
    erasing such positions from the list of any letter leaves the verdict
    as it was. *)
Theorem checkRules_out_of_range_positions (W : string) (R : WordleRules) :
  (∃ verdict, checkRules W R = verdict) ∧
  (∀ p letter, Rules.exact R !! p = Some letter → Rules.length R ≤ p →
     checkRules W R = false) ∧
  (∀ letter positions,
     checkRules W (setPresent letter positions R) =
     checkRules W (setPresent letter (filter (λ p, p < String.length W) positions) R)).
Proof.
  split; [by eexists|]. split.
  - intros p letter Hp Hle. apply not_true_iff_false. rewrite checkRules_spec.
    intros (Hlen & Hex & _). apply Hex, charAt_in_range in Hp.
    unfold lengthHolds in Hlen. lia.
  - intros letter positions. apply checkRules_setPresent_congr.
    rewrite <- (length_toUpperCase W). apply presentHolds_drop_out_of_range.
Qed.

Lemma checkRules_out_of_range_AMONG :
  checkRules "AMONG" (setExact 7 "O"%char sampleRules) = false.
Proof.
  destruct (checkRules_out_of_range_positions "AMONG" (setExact 7 "O"%char sampleRules))
    as (_ & Hexact & _).
  apply (Hexact 7 "O"%char).
  - vm_compute. reflexivity.
  - vm_compute. lia.
Defined.

(** * The validator *)

(** C5.  [validateWordExistence] decides in this order.  A cache entry
    under the key of (word, N) is returned as it is and nothing is
    requested.  Otherwise a word whose length differs from [N] is cached
    and answered [false], again without a request.  Otherwise the lookup
    service is asked once and the answer is cached: [true] on a success
    status, [false] on 404, [true] on any other status and when the
    request fails.  After such a failure the key holds [true] and a
    second lookup answers [true] from the cache without a request. *)
Theorem validateWordExistence_decision_order
    (fetch : string → Fetched unit) (W : string) (N : nat) (known : gmap string bool) :
  let word := toLowerCase W in
  let key := cacheKey word N in
  let url := DICT_API_URL +:+ word in
  let r := validateWordExistence fetch W N known in
  (∀ v, known !! key = Some v →
     verdict r = v ∧ cache r = known ∧ requests r = []) ∧
  (known !! key = None → String.length W ≠ N →
     verdict r = false ∧ cache r = <[key := false]> known ∧ requests r = []) ∧
  (known !! key = None → String.length W = N →
     requests r = [url] ∧ cache r = <[key := verdict r]> known ∧
     (∀ status statusText body, fetch url = Response status statusText body →
        (ok status = true → verdict r = true) ∧
        (status = 404 → verdict r = false) ∧
        (ok status = false → status ≠ 404 → verdict r = true)) ∧
     (∀ name message, fetch url = Rejects name message →
        verdict r = true ∧ cache r !! key = Some true ∧
        ∀ fetch', let again := validateWordExistence fetch' W N (cache r) in
                  verdict again = true ∧ requests again = [] ∧ cache again = cache r)).
Proof.
  cbv zeta. split; [|split].
  - intros v Hk. by rewrite (validateWordExistence_hit fetch W N known v Hk).
  - intros Hk Hlen. unfold validateWordExistence. rewrite Hk, length_toLowerCase.
    apply Nat.eqb_neq in Hlen. by rewrite Hlen.
  - intros Hk Hlen.
    assert (Hr : validateWordExistence fetch W N known =
      let v := match fetch (DICT_API_URL +:+ toLowerCase W) with
               | Response status _ _ => ok status || negb (status =? 404)
               | Rejects _ _ => true
               end in
      {| verdict := v; cache := <[cacheKey (toLowerCase W) N := v]> known;
         requests := [DICT_API_URL +:+ toLowerCase W] |}).
    { unfold validateWordExistence. rewrite Hk, length_toLowerCase.
      apply Nat.eqb_eq in Hlen. rewrite Hlen. cbn [negb].
      destruct (fetch _) as [status statusText body|name message]; [|done].
      destruct (ok status); [done|]. by destruct (status =? 404). }
    rewrite Hr. cbv zeta. cbn [verdict cache requests].
    split; [done|]. split; [done|]. split.
    + intros status statusText body Hf. rewrite Hf. split; [|split].
      * by intros ->.
      * by intros ->.
      * intros -> Hne. apply Nat.eqb_neq in Hne. by rewrite Hne.
    + intros name message Hf. rewrite Hf.
      split; [done|]. split; [by rewrite lookup_insert_eq|]. intros fetch'.
      erewrite validateWordExistence_hit; [done|]. by rewrite lookup_insert_eq.
Qed.

Lemma validateWordExistence_offline_crane :
  verdict (validateWordExistence unreachable "crane" 5 ∅) = true ∧
  ∀ fetch',
    requests (validateWordExistence fetch' "crane" 5
                (cache (validateWordExistence unreachable "crane" 5 ∅))) = [].
Proof.
  destruct (validateWordExistence_decision_order unreachable "crane" 5 ∅)
    as (_ & _ & Hask).
  destruct Hask as (_ & _ & _ & Hfail); [reflexivity|reflexivity|].
  destruct (Hfail "TypeError" "fetch failed" eq_refl) as (Hv & _ & Hagain).
  split; [exact Hv|]. intros fetch'. apply (Hagain fetch').
Defined.

(** C9.  Letter case does not matter at the interface.  For two
    strings that differ only in letter case [checkRules] gives the same
    verdict under every rule set, and [validateWordExistence] uses one
    cache key for both, behaves the same on both from the same cache, and
    answers the second of two successive lookups from the entry the first
    one left, with the same verdict and without a request. *)
Theorem letter_case_is_ignored (W W' : string) :
  sameModuloCase W W' →
  (∀ R, checkRules W R = checkRules W' R) ∧
  (∀ N, cacheKey (toLowerCase W) N = cacheKey (toLowerCase W') N) ∧
  (∀ fetch N known,
     validateWordExistence fetch W N known = validateWordExistence fetch W' N known) ∧
  (∀ fetch fetch' N known,
     let first := validateWordExistence fetch W N known in
     let second := validateWordExistence fetch' W' N (cache first) in
     verdict second = verdict first ∧ requests second = [] ∧
     cache second = cache first).
Proof.
  intros Hsame.
  pose proof (sameModuloCase_toUpperCase W W' Hsame) as Hup.
  pose proof (sameModuloCase_toLowerCase W W' Hsame) as Hlow.
  split; [|split; [|split]].
  - intros R. by apply checkRules_toUpperCase.
  - intros N. by rewrite Hlow.
  - intros fetch N known. by apply validateWordExistence_toLowerCase.
  - intros fetch fetch' N known. cbv zeta.
    pose proof (validateWordExistence_records fetch W N known) as Hrec. cbv zeta in Hrec.
    rewrite Hlow in Hrec.
    by rewrite (validateWordExistence_hit fetch' W' N _ _ Hrec).
Qed.

Lemma letter_case_is_ignored_Crane :
  checkRules "Crane" sampleRules = checkRules "cRANE" sampleRules ∧
  cacheKey (toLowerCase "Crane") 5 = cacheKey (toLowerCase "cRANE") 5.
Proof.
  assert (Hsame : sameModuloCase "Crane" "cRANE").
  { simpl. unfold sameLetter. repeat split; vm_compute; tauto. }
  destruct (letter_case_is_ignored "Crane" "cRANE" Hsame) as (Hcheck & Hkey & _).
  split; [apply Hcheck|apply Hkey].
Defined.

(** * The request executor *)

(** C2.  The executor at a server error: the first attempt is answered
    with status 500, the [else] branch raises its error inside the [try],
    the [catch] block takes it for a failed request, waits the initial
    delay and sends a second request, whose payload the call returns.
    The error of the first attempt is not surfaced and the attempt is not
    the last one. *)
Theorem server_error_is_retried :
  handleGeminiApiCall serverErrorThenSuccess "key" 5 1000 =
  {| result := Returns (Some samplePayload); attempts := 2; waits := [1000] |}.
Proof. vm_compute. reflexivity. Qed.

(** * The collector *)

Lemma pageLoop_requests_current fetch baseUrl n fuel p ws req :
  p ∈ fetchedPages (pageLoop fetch baseUrl n (S fuel) p ws req).
Proof.
  assert (Hend : ∀ c, p ∈ fetchedPages {| collected := c; fetchedPages := req ++ [p] |}).
  { intros c. simpl. rewrite elem_of_app, list_elem_of_singleton. by right. }
  cbn [pageLoop]. destruct (fetch _) as [status statusText body|name message]; [|apply Hend].
  destruct (negb (ok status)); [destruct (_ && _); apply Hend|].
  destruct body as [html|]; [|apply Hend].
  destruct (extractWordsFromHtml html n) as [pw|]; [|apply Hend].
  destruct (chainsTo _ p); [|apply Hend].
  destruct (pageLoop_trace fetch baseUrl n fuel (p + 1) (ws ++ pw) (req ++ [p]))
    as (m & _ & ->).
  rewrite !elem_of_app, list_elem_of_singleton. left. by right.
Qed.

Lemma fetchWordListByPosition_seeded fetch rules fuel position letter :
  firstExactPosition rules = Some position →
  Rules.exact rules !! position = Some letter →
  fetchWordListByPosition fetch rules fuel =
  pageLoop fetch (seedBaseUrl rules position letter) (Rules.length rules) fuel 1 [] [].
Proof. intros Hp Hl. unfold fetchWordListByPosition. by rewrite Hp, Hl. Qed.

(** C3.  The collector requests the pages 1, 2, 3, ... in this order
    and nothing else.  After a page that arrived and was read, the next
    page is requested when the page declares the number of the current
    page plus one as its next page; with no declared next page, or
    another number, the collection ends there.  A page other than the
    first is requested only after its predecessor declared it. *)
Theorem pagination_follows_declared_chain
    (fetch : string → Fetched (option string)) (rules : WordleRules) :
  (∀ fuel, let run := fetchWordListByPosition fetch rules fuel in
           fetchedPages run = seq 1 (length (fetchedPages run))) ∧
  (∀ baseUrl n fuel p ws req status statusText html pw,
     fetch (pageUrlOf baseUrl p) = Response status statusText (Some html) →
     ok status = true →
     extractWordsFromHtml html n = Some pw →
     (getNextPageNumber html = Some (p + 1) →
        pageLoop fetch baseUrl n (S fuel) p ws req =
          pageLoop fetch baseUrl n fuel (p + 1) (ws ++ pw) (req ++ [p]) ∧
        p + 1 ∈ fetchedPages (pageLoop fetch baseUrl n (S (S fuel)) p ws req)) ∧
     (getNextPageNumber html ≠ Some (p + 1) →
        pageLoop fetch baseUrl n (S fuel) p ws req =
          {| collected := Finished (uniqueWords (ws ++ pw));
             fetchedPages := req ++ [p] |})) ∧
  (∀ fuel position letter k,
     firstExactPosition rules = Some position →
     Rules.exact rules !! position = Some letter →
     S k ∈ fetchedPages (fetchWordListByPosition fetch rules fuel) → 1 ≤ k →
     ∃ status statusText html,
       fetch (pageUrlOf (seedBaseUrl rules position letter) k) =
         Response status statusText (Some html) ∧
       ok status = true ∧ getNextPageNumber html = Some (S k)).
Proof.
  split; [|split].
  - intros fuel. cbv zeta. unfold fetchWordListByPosition.
    destruct (firstExactPosition rules) as [position|]; [|done].
    destruct (Rules.exact rules !! position) as [letter|]; [|done].
    destruct (pageLoop_trace fetch (seedBaseUrl rules position letter)
                (Rules.length rules) fuel 1 [] []) as (k & _ & ->).
    simpl. by rewrite length_seq.
  - intros baseUrl n fuel p ws req status statusText html pw Hf Hok Hex. split.
    + intros Hnext. apply chainsTo_spec in Hnext.
      rewrite !(pageLoop_step _ _ _ _ _ _ _ _ _ _ _ Hf Hok Hex), Hnext.
      split; [done|]. apply pageLoop_requests_current.
    + intros Hnext. rewrite (pageLoop_step _ _ _ _ _ _ _ _ _ _ _ Hf Hok Hex).
      destruct (chainsTo _ p) eqn:Hch; [|done]. by apply chainsTo_spec in Hch.
  - intros fuel position letter k Hp Hl Hin Hk.
    rewrite (fetchWordListByPosition_seeded _ _ _ _ _ Hp Hl) in Hin.
    apply (pageLoop_only_declared _ _ _ _ _ _ _ _ Hin); [|done].
    by intros ?%elem_of_nil.
Qed.

Lemma pagination_two_pages :
  fetchedPages (fetchWordListByPosition twoPages sampleRules 7) = [1; 2] ∧
  ∃ status statusText html,
    twoPages (pageUrlOf (seedBaseUrl sampleRules 2 "O"%char) 1) =
      Response status statusText (Some html) ∧
    ok status = true ∧ getNextPageNumber html = Some 2.
Proof.
  split; [vm_compute; reflexivity|].
  destruct (pagination_follows_declared_chain twoPages sampleRules) as (_ & _ & Hdecl).
  apply (Hdecl 7 2 "O"%char 1).
  - vm_compute. reflexivity.
  - vm_compute. reflexivity.
  - decide_by_compute.
  - lia.
Defined.

(** C4.  In a run of the collector for one seed in which page [k] is
    requested: a non-success response to that request makes the whole
    collection return the empty list, whatever was accumulated, unless the
    status is 404 and [k] is not the first page, in which case the
    collection returns the words of the pages before [k] without
    duplicates.  A request that fails, or a body that cannot be read,
    gives the empty list as well. *)
Theorem fetchWordListByPosition_failure
    (fetch : string → Fetched (option string)) (rules : WordleRules)
    (fuel position k : nat) (letter : ascii) :
  firstExactPosition rules = Some position →
  Rules.exact rules !! position = Some letter →
  let baseUrl := seedBaseUrl rules position letter in
  let run := fetchWordListByPosition fetch rules fuel in
  k ∈ fetchedPages run →
  (∀ status statusText body,
     fetch (pageUrlOf baseUrl k) = Response status statusText body →
     ok status = false →
     collected run =
       if (status =? 404) && (1 <? k)
       then Finished (uniqueWords (wordsOfPages fetch (pageUrlOf baseUrl)
                                      (Rules.length rules) 1 (k - 1)))
       else Finished []) ∧
  (∀ name message,
     fetch (pageUrlOf baseUrl k) = Rejects name message →
     collected run = Finished []) ∧
  (∀ status statusText,
     fetch (pageUrlOf baseUrl k) = Response status statusText None →
     ok status = true →
     collected run = Finished []).
Proof.
  intros Hp Hl. cbv zeta. rewrite (fetchWordListByPosition_seeded _ _ _ _ _ Hp Hl).
  intros Hin.
  pose proof (pageLoop_failure fetch (seedBaseUrl rules position letter)
                (Rules.length rules) k fuel 1 [] [] Hin) as H.
  split; [|split].
  - intros status statusText body Hf Hok. rewrite Hf, Hok in H. simpl in H.
    apply H; [by intros ?%elem_of_nil|by left].
  - intros name message Hf. rewrite Hf in H. apply H; [by intros ?%elem_of_nil|done].
  - intros status statusText Hf Hok. rewrite Hf, Hok in H. simpl in H.
    apply H; [by intros ?%elem_of_nil|by right].
Qed.

Lemma fetchWordListByPosition_failure_samples :
  collected (fetchWordListByPosition secondPageMissing sampleRules 7) =
    Finished ["ABODE"; "AMONG"] ∧
  collected (fetchWordListByPosition secondPageBroken sampleRules 7) = Finished [].
Proof.
  assert (Hp : firstExactPosition sampleRules = Some 2) by (vm_compute; reflexivity).
  assert (Hl : Rules.exact sampleRules !! 2 = Some "O"%char) by (vm_compute; reflexivity).
  split.
  - assert (Hin : 2 ∈ fetchedPages (fetchWordListByPosition secondPageMissing sampleRules 7))
      by decide_by_compute.
    destruct (fetchWordListByPosition_failure secondPageMissing sampleRules 7 2 2 "O"%char
                Hp Hl Hin) as (Hstatus & _ & _).
    rewrite (Hstatus 404 "Not Found" None); [|vm_compute; reflexivity..].
    vm_compute. reflexivity.
  - assert (Hin : 2 ∈ fetchedPages (fetchWordListByPosition secondPageBroken sampleRules 7))
      by decide_by_compute.
    destruct (fetchWordListByPosition_failure secondPageBroken sampleRules 7 2 2 "O"%char
                Hp Hl Hin) as (Hstatus & _ & _).
    rewrite (Hstatus 500 "Internal Server Error" None); [|vm_compute; reflexivity..].
    vm_compute. reflexivity.
Defined.

(** The loop of the fetch prototype ends in the same way, except that
    the words of the earlier pages are returned as accumulated: its
    caller, not the loop, removes the duplicates. *)
Lemma fetchWordsFromUrl_failure
    (fetch : string → Fetched (option string)) (baseUrl : string) (n fuel k : nat) :
  k ∈ fetchedPages (fetchWordsFromUrl fetch baseUrl n fuel) →
  ∀ status statusText body,
    fetch (prototypeUrlOf baseUrl k) = Response status statusText body →
    ok status = false →
    collected (fetchWordsFromUrl fetch baseUrl n fuel) =
      if (status =? 404) && (1 <? k)
      then Finished (wordsOfPages fetch (prototypeUrlOf baseUrl) n 1 (k - 1))
      else Finished [].
Proof.
  intros Hin status statusText body Hf Hok.
  pose proof (urlLoop_failure fetch baseUrl n k fuel 1 [] [] Hin) as H.
  rewrite Hf, Hok in H. simpl in H. apply H; [by intros ?%elem_of_nil|by left].
Qed.

(** * The rule compiler *)

Lemma allChars_impl (p q : ascii → bool) (s : string) :
  (∀ c, p c = true → q c = true) → allChars p s = true → allChars q s = true.
Proof.
  intros Hpq. induction s as [|c s IH]; [done|]. simpl.
  intros [Hc Hs]%andb_true_iff. by rewrite (Hpq c Hc), (IH Hs).
Qed.

Lemma allChars_both (p q : ascii → bool) (s : string) :
  allChars p s = true → allChars q s = true → allChars (λ c, p c && q c) s = true.
Proof.
  induction s as [|c s IH]; [done|]. simpl.
  intros [Hp Hs]%andb_true_iff [Hq Hs']%andb_true_iff. by rewrite Hp, Hq, (IH Hs Hs').
Qed.

Lemma allChars_trim p (s : string) : allChars p s = true → allChars p (trim s) = true.
Proof.
  intros H. unfold trim, trimEnd, trimStart, String.rev.
  rewrite allChars_rev_app, andb_true_r. apply allChars_dropWhile.
  rewrite allChars_rev_app, andb_true_r. by apply allChars_dropWhile.
Qed.

Lemma notAtMatch_chars (line : string) :
  ∀ group, notAtMatch line = Some group → allChars isPositionChar group = true.
Proof.
  induction line as [|c line IH]; intros group; [done|]. cbn [notAtMatch].
  destruct (stripPrefix "NOT AT " (String c line)) as [g|]; [|apply IH].
  destruct (nonEmpty g && allChars isPositionChar g) eqn:Hg; [|apply IH].
  intros [= <-]. by apply andb_true_iff in Hg as [_ ?].
Qed.

Lemma isPieceChar_spec (c : ascii) :
  isPositionChar c && negb (bool_decide (c = ","%char)) = true → isPieceChar c = true.
Proof.
  unfold isPositionChar, isPieceChar.
  destruct (isDigit c), (bool_decide (c = ","%char)), (bool_decide (c = " "%char)); done.
Qed.

(** The pieces between the commas of a position list hold digits and
    spaces. *)
Lemma position_pieces_chars (group piece : string) :
  allChars isPositionChar group = true → piece ∈ split ","%char group →
  allChars isPieceChar piece = true.
Proof.
  intros Hg Hin.
  pose proof (split_allChars _ _ _ Hg piece Hin) as Hp.
  pose proof (split_no_separator _ _ piece Hin) as Hc.
  apply (allChars_impl _ _ _ isPieceChar_spec (allChars_both _ _ _ Hp Hc)).
Qed.

(** On a piece of digits and spaces [parseInt] meets no sign: it reads
    the integer the piece starts with. *)
Lemma parseInt_piece (piece : string) :
  allChars isPieceChar piece = true →
  parseInt (trim piece) = Z.of_nat <$> leadingInteger piece.
Proof.
  intros Hp. unfold parseInt, leadingInteger.
  assert (Hw : allChars isPieceChar (trimStart (trim piece)) = true).
  { unfold trimStart. apply allChars_dropWhile. by apply allChars_trim. }
  destruct (trimStart (trim piece)) as [|c w]; [done|].
  pose proof Hw as [Hc _]%andb_true_iff.
  rewrite !bool_decide_eq_false_2.
  - unfold parseDigits. destruct (span isDigit (String c w)) as [digits rest].
    by destruct (nonEmpty digits).
  - intros ->. done.
  - intros ->. done.
Qed.

Lemma disallowedPositionsOf_pieces (pieces : list string) :
  (∀ piece, piece ∈ pieces → allChars isPieceChar piece = true) →
  Forall2 storedFrom
    (omap (λ p, match parseInt (trim p) with
                | Some n => if (0 <=? n - 1)%Z then Some (Z.to_nat (n - 1)) else None
                | None => None
                end) pieces)
    (filter (λ piece, keptPiece piece = true) pieces).
Proof.
  induction pieces as [|piece pieces IH]; intros Hall; [constructor|].
  assert (IH' := IH (λ q Hq, Hall q (list_elem_of_further _ _ _ Hq))).
  cbn [omap list_omap]. rewrite filter_cons.
  rewrite (parseInt_piece piece) by (apply Hall; by left).
  unfold keptPiece. destruct (leadingInteger piece) as [n|] eqn:Hn;
    cbn [fmap option_fmap option_map].
  - destruct (0 <=? Z.of_nat n - 1)%Z eqn:Hz.
    + apply Z.leb_le in Hz. rewrite decide_True by (apply Nat.leb_le; lia).
      constructor; [|done]. exists n. split; [done|]. split; [lia|]. intros _. lia.
    + apply Z.leb_gt in Hz. rewrite decide_False; [done|].
      intros H%Nat.leb_le. lia.
  - by rewrite decide_False.
Qed.

(** The positions a presence line stores, against the pieces of its
    position list. *)
Lemma positionsOfLine_pieces (line : string) :
  match notAtMatch line with
  | Some group =>
      Forall2 storedFrom (positionsOfLine line)
              (filter (λ piece, keptPiece piece = true) (split ","%char group))
  | None => positionsOfLine line = []
  end.
Proof.
  unfold positionsOfLine. destruct (notAtMatch line) as [group|] eqn:Hg; [|done].
  apply disallowedPositionsOf_pieces. intros piece Hin.
  apply (position_pieces_chars group); [by apply (notAtMatch_chars line)|done].
Qed.

(** A piece is read up to its first character that is not a digit: the
    list [1 2, 3 4] stores the positions 0 and 2, and the pieces [0] and
    [x] of a list store nothing. *)
Lemma position_list_pieces_example :
  Rules.present (parseRules "A IN WORD, NOT AT 1 2, 3 4") !! "A"%char = Some [0; 2] ∧
  filter (λ piece, keptPiece piece = true) (split ","%char "1 2, 3 4") = ["1 2"; " 3 4"] ∧
  Rules.present (parseRules "A IN WORD, NOT AT 0, ,5") !! "A"%char = Some [4].
Proof. repeat split; vm_compute; reflexivity. Qed.

(** C6, as amended.  Every key of [exact] in a compiled rule set is the
    digit of an exact-position line of the source minus one, the digit
    being within 1..9; an exact-position line whose position is not
    within 1..9 stores nothing, raises nothing and leaves the compilation
    of the lines around it as it is.  The disallowed positions stored for
    a letter of [present] come from a presence line of that letter: they
    are, one for one and in order, the pieces of the list after [NOT AT]
    that start with an integer of at least one, so that exactly the
    pieces that start with 0 or with no digit are dropped; a stored
    position is the integer of its piece minus one whenever that integer
    is at most 2^53, where [parseInt] and the subtraction are exact.
    There is no upper bound of 9. *)
Theorem parseRules_positions_origin :
  (∀ text p letter,
     Rules.exact (parseRules text) !! p = Some letter →
     ∃ line digit, line ∈ sourceLines text ∧ exactMatch line = Some (letter, digit) ∧
                   parseNat digit = S p ∧ 1 ≤ S p ≤ 9) ∧
  (∀ text letter positions,
     Rules.present (parseRules text) !! letter = Some positions →
     ∃ line,
       line ∈ sourceLines text ∧ presentMatch line = Some letter ∧
       match notAtMatch line with
       | Some group =>
           Forall2 storedFrom positions
                   (filter (λ piece, keptPiece piece = true) (split ","%char group))
       | None => positions = []
       end) ∧
  (∀ c digits rules pre post,
     ¬ (1 ≤ parseNat digits ≤ 9) →
     parseLine rules (String c (" AT " +:+ digits)) = rules ∧
     parseLines (pre ++ String c (" AT " +:+ digits) :: post) rules =
     parseLines (pre ++ post) rules).
Proof.
  split; [|split].
  - intros text p letter H. unfold parseRules in H.
    apply parseLines_exact in H as [H|H]; [|done].
    unfold defaultRules in H. simpl in H. by rewrite lookup_empty in H.
  - intros text letter positions H. unfold parseRules in H.
    apply parseLines_present in H as [H|(line & Hin & Hm & ->)].
    { unfold defaultRules in H. simpl in H. by rewrite lookup_empty in H. }
    exists line. split; [done|]. split; [done|]. apply positionsOfLine_pieces.
  - intros c digits rules pre post Hout. split.
    + by apply parseLine_position_dropped.
    + apply parseLines_skip. intros r. by apply parseLine_position_dropped.
Qed.

Lemma parseRules_positions_origin_sample :
  ∃ line digit, line ∈ sourceLines (unlines ["O AT 3"; "X AT 0"]) ∧
                exactMatch line = Some ("O"%char, digit) ∧
                parseNat digit = 3 ∧ 1 ≤ 3 ≤ 9.
Proof.
  destruct parseRules_positions_origin as (Hexact & _ & _).
  apply (Hexact (unlines ["O AT 3"; "X AT 0"]) 2 "O"%char).
  vm_compute. reflexivity.
Defined.

(** C6 as stated fails for [present]: the source position 12 lies
    outside 1..9 and is stored, as the zero-based position 11. *)
Lemma present_stores_position_beyond_nine :
  Rules.present (parseRules "A IN WORD, NOT AT 12") !! "A"%char = Some [11] ∧
  ¬ (1 ≤ 11 + 1 ≤ 9).
Proof. split; [vm_compute; reflexivity|lia]. Qed.

Lemma lastLengthDigits_declared (lines : list string) :
  declaredLength lines = parseNat <$> lastLengthDigits lines.
Proof.
  unfold declaredLength, lastLengthDigits. rewrite <- fmap_last. f_equal.
  induction lines as [|line lines IH]; [done|]. cbn [omap list_omap].
  rewrite IH. by destruct (lengthMatch line).
Qed.

Lemma lastLengthDigits_shape (lines : list string) (digits : string) :
  lastLengthDigits lines = Some digits →
  ∃ line, line ∈ lines ∧ lengthMatch line = Some digits ∧
          nonEmpty digits = true ∧ allChars isDigit digits = true.
Proof.
  unfold lastLengthDigits. intros Hlast%last_Some_elem_of.
  apply list_elem_of_omap in Hlast as (line & Hin & Hline).
  exists line. split; [done|]. split; [done|].
  by destruct (lengthMatch_shape _ _ Hline) as (_ & ? & ?).
Qed.

Lemma digitValue_zero (c : ascii) :
  isDigit c = true → (digitValue c = 0 ↔ isZeroDigit c = true).
Proof.
  unfold isZeroDigit. rewrite bool_decide_eq_true.
  unfold isDigit, digitValue. rewrite inRange_spec. intros Hc. split.
  - intros H0. assert (Hcode : code c = 48) by lia.
    unfold code in Hcode. apply (f_equal ascii_of_nat) in Hcode.
    by rewrite ascii_nat_embedding in Hcode.
  - by intros ->.
Qed.

(** Digits spell zero exactly when each of them is the digit 0. *)
Lemma decimalFrom_zero (digits : string) :
  ∀ acc, allChars isDigit digits = true →
         (decimalFrom acc digits = 0 ↔ acc = 0 ∧ allChars isZeroDigit digits = true).
Proof.
  induction digits as [|c digits IH]; intros acc; simpl; [intuition|].
  intros [Hc Hd]%andb_true_iff. rewrite (IH _ Hd), andb_true_iff.
  pose proof (digitValue_zero c Hc). split.
  - intros [H0 Hz]. split; [lia|]. split; [|done]. apply H. lia.
  - intros [-> [Hz1 Hz]]. split; [|done]. apply H in Hz1. lia.
Qed.

(** C7, as amended.  The [length] of a compiled rule set is 5 when the
    source has no [LENGTH:] line; otherwise it is read from the digits of
    the last [LENGTH:] line.  It is then 0 exactly when these digits are
    all zeros, so it is not always positive, and it is the integer the
    digits spell whenever that integer is at most 2^53, where [parseInt]
    is exact. *)
Theorem parseRules_length_default_or_declared (text : string) :
  match lastLengthDigits (sourceLines text) with
  | None => Rules.length (parseRules text) = 5
  | Some digits =>
      (∃ line, line ∈ sourceLines text ∧ lengthMatch line = Some digits) ∧
      nonEmpty digits = true ∧ allChars isDigit digits = true ∧
      (Rules.length (parseRules text) = 0 ↔ allChars isZeroDigit digits = true) ∧
      (safeInteger (decimal digits) = true →
       Rules.length (parseRules text) = decimal digits)
  end.
Proof.
  assert (H : Rules.length (parseRules text) =
              default 5 (parseNat <$> lastLengthDigits (sourceLines text))).
  { unfold parseRules. by rewrite parseLines_length, lastLengthDigits_declared. }
  destruct (lastLengthDigits (sourceLines text)) as [digits|] eqn:Hlast; [|done].
  destruct (lastLengthDigits_shape _ _ Hlast) as (line & Hin & Hm & Hne & Hall).
  simpl in H. rewrite (parseNat_digits _ Hne Hall) in H. rewrite H.
  split; [by exists line|]. split; [done|]. split; [done|]. split; [|done].
  unfold decimal. rewrite (decimalFrom_zero digits 0 Hall). intuition.
Qed.

Lemma parseRules_length_sample :
  Rules.length (parseRules (unlines ["LENGTH: 6"; "O AT 3"; "length:07"])) = 7.
Proof.
  pose proof (parseRules_length_default_or_declared
                (unlines ["LENGTH: 6"; "O AT 3"; "length:07"])) as H.
  assert (Hlast : lastLengthDigits (sourceLines (unlines ["LENGTH: 6"; "O AT 3"; "length:07"]))
                  = Some "07") by (vm_compute; reflexivity).
  rewrite Hlast in H. destruct H as (_ & _ & _ & _ & H).
  apply H. vm_compute. reflexivity.
Defined.

(** C7 as stated fails: the line [LENGTH: 0] is recognised and sets the
    length to 0, which is not positive. *)
Lemma parseRules_length_zero :
  lengthMatch "LENGTH: 0" = Some "0" ∧ Rules.length (parseRules "LENGTH: 0") = 0 ∧
  ¬ (1 ≤ Rules.length (parseRules "LENGTH: 0")).
Proof.
  assert (H : Rules.length (parseRules "LENGTH: 0") = 0) by (vm_compute; reflexivity).
  split; [vm_compute; reflexivity|]. split; [exact H|]. rewrite H. lia.
Qed.

(** * Further properties of the collector *)

Lemma uniqueFrom_elem (l : list string) :
  ∀ seen w, w ∈ uniqueFrom seen l ↔ w ∈ l ∧ w ∉ seen.
Proof.
  induction l as [|a l IH]; intros seen w; simpl.
  - rewrite elem_of_nil. tauto.
  - destruct (bool_decide (a ∈ seen)) eqn:Ha.
    + apply bool_decide_eq_true in Ha. rewrite IH, elem_of_cons.
      split; [tauto|]. intros [[->|?] ?]; tauto.
    + apply bool_decide_eq_false in Ha. rewrite !elem_of_cons, IH, elem_of_cons.
      split.
      * intros [->|[? ?]]; tauto.
      * intros [[->|?] ?]; [tauto|]. destruct (decide (w = a)); tauto.
Qed.

Lemma uniqueFrom_NoDup (l : list string) : ∀ seen, NoDup (uniqueFrom seen l).
Proof.
  induction l as [|a l IH]; intros seen; simpl; [constructor|].
  destruct (bool_decide (a ∈ seen)); [apply IH|].
  apply NoDup_cons. split; [|apply IH].
  rewrite uniqueFrom_elem, elem_of_cons. tauto.
Qed.

Lemma uniqueFrom_sublist (l : list string) : ∀ seen, sublist (uniqueFrom seen l) l.
Proof.
  induction l as [|a l IH]; intros seen; simpl; [constructor|].
  destruct (bool_decide (a ∈ seen)); [apply sublist_cons|apply sublist_skip]; apply IH.
Qed.

Lemma uniqueFrom_filter (l : list string) :
  ∀ seen1 seen2,
    uniqueFrom (seen1 ++ seen2) l = uniqueFrom seen1 (filter (λ x, x ∉ seen2) l).
Proof.
  induction l as [|a l IH]; intros seen1 seen2; [done|].
  cbn [uniqueFrom]. rewrite filter_cons.
  destruct (decide (a ∉ seen2)) as [Hn|Hin].
  - cbn [uniqueFrom].
    destruct (bool_decide (a ∈ seen1)) eqn:H1.
    + apply bool_decide_eq_true in H1.
      rewrite bool_decide_eq_true_2 by (apply elem_of_app; by left). apply IH.
    + apply bool_decide_eq_false in H1.
      rewrite bool_decide_eq_false_2 by (rewrite elem_of_app; tauto).
      f_equal. apply (IH (a :: seen1) seen2).
  - apply dec_stable in Hin.
    rewrite bool_decide_eq_true_2 by (apply elem_of_app; by right). apply IH.
Qed.

Lemma uniqueFrom_NoDup_id (l : list string) :
  ∀ seen, NoDup l → (∀ w, w ∈ l → w ∉ seen) → uniqueFrom seen l = l.
Proof.
  induction l as [|a l IH]; intros seen Hnd Hseen; [done|].
  apply NoDup_cons in Hnd as [Ha Hnd]. simpl.
  rewrite bool_decide_eq_false_2 by (apply Hseen; by left).
  f_equal. apply IH; [done|]. intros w Hw. rewrite elem_of_cons.
  intros [->|?]; [done|]. apply (Hseen w); [by right|done].
Qed.

(** X1.  [Array.from(new Set(allWords))]: the result has no duplicates
    and the same members as the list; it keeps the first occurrence of
    every word, in the order of the list; a list without duplicates is
    returned as it is, so removing duplicates twice changes nothing. *)
Theorem uniqueWords_first_occurrences (words : list string) :
  NoDup (uniqueWords words) ∧
  (∀ w, w ∈ uniqueWords words ↔ w ∈ words) ∧
  sublist (uniqueWords words) words ∧
  (∀ w, uniqueWords (w :: words) = w :: uniqueWords (filter (λ x, x ≠ w) words)) ∧
  (NoDup words → uniqueWords words = words) ∧
  uniqueWords (uniqueWords words) = uniqueWords words.
Proof.
  unfold uniqueWords. repeat split.
  - apply uniqueFrom_NoDup.
  - intros Hw. by apply uniqueFrom_elem in Hw as [? _].
  - intros Hw. apply uniqueFrom_elem. split; [done|]. by intros ?%elem_of_nil.
  - apply uniqueFrom_sublist.
  - intros w. cbn [uniqueFrom].
    rewrite bool_decide_eq_false_2 by (by intros ?%elem_of_nil). f_equal.
    etrans; [exact (uniqueFrom_filter words [] [w])|]. f_equal.
    apply list_filter_iff. intros x. rewrite list_elem_of_singleton. done.
  - intros Hnd. apply uniqueFrom_NoDup_id; [done|]. intros w _. by intros ?%elem_of_nil.
  - apply uniqueFrom_NoDup_id; [apply uniqueFrom_NoDup|].
    intros w _. by intros ?%elem_of_nil.
Qed.

Lemma uniqueWords_first_occurrences_sample :
  uniqueWords ["ABODE"; "AMONG"] = ["ABODE"; "AMONG"].
Proof.
  destruct (uniqueWords_first_occurrences ["ABODE"; "AMONG"]) as (_ & _ & _ & _ & Hid & _).
  apply Hid. apply (bool_decide_unpack _). vm_compute. exact I.
Defined.

Lemma isUpper_upcase c : isUpper c = true → upcase c = c.
Proof.
  unfold upcase, isUpper, isLower. rewrite inRange_spec. intros H.
  destruct (inRange 97 122 c) eqn:Hl; [|done]. apply inRange_spec in Hl. lia.
Qed.

Lemma allUpper_toUpperCase (w : string) : allChars isUpper w = true → toUpperCase w = w.
Proof.
  induction w as [|c w IH]; [done|]. simpl. intros [Hc Hw]%andb_true_iff.
  unfold toUpperCase in *. simpl. by rewrite (isUpper_upcase c Hc), (IH Hw).
Qed.

Lemma takeUpper_Some (n : nat) :
  ∀ s word rest, takeUpper n s = Some (word, rest) →
    String.length word = n ∧ allChars isUpper word = true ∧ s = word +:+ rest.
Proof.
  induction n as [|n IH]; intros s word rest; simpl.
  - by intros [= <- <-].
  - destruct s as [|c s]; [done|]. destruct (isUpper c) eqn:Hc; [|done].
    destruct (takeUpper n s) as [[w r]|] eqn:Ht; [|done]. simpl. intros [= <- <-].
    destruct (IH s w r Ht) as (Hlen & Hup & ->). simpl. by rewrite Hlen, Hc, Hup.
Qed.

Lemma scanWords_shape (n : nat) (s : string) :
  ∀ skip prevIsWord w, w ∈ scanWords n skip prevIsWord s →
    String.length w = n ∧ allChars isUpper w = true.
Proof.
  induction s as [|c s IH]; intros skip prevIsWord w; cbn [scanWords].
  - by intros ?%elem_of_nil.
  - destruct skip as [|k]; [|apply IH].
    destruct (if prevIsWord then None else takeUpper n (String c s)) as [[word rest]|] eqn:Ht;
      [|apply IH].
    destruct (boundaryAfter rest); [|apply IH].
    rewrite elem_of_cons. intros [->|Hw]; [|by apply IH in Hw].
    destruct prevIsWord; [done|]. apply takeUpper_Some in Ht. tauto.
Qed.

(** X2.  Every word [extractWordsFromHtml] returns has exactly
    [wordLength] characters, all of them letters A-Z, so [toUpperCase]
    leaves it as it is; with [wordLength = 0] a call that returns gives
    no word at all. *)
Theorem extractWordsFromHtml_words_shape (html : string) (wordLength : nat)
    (pageWords : list string) :
  extractWordsFromHtml html wordLength = Some pageWords →
  (∀ w, w ∈ pageWords →
     String.length w = wordLength ∧ allChars isUpper w = true ∧ toUpperCase w = w) ∧
  (wordLength = 0 → pageWords = []).
Proof.
  unfold extractWordsFromHtml. destruct wordLength as [|n].
  - destruct (anyChar _ _); [done|]. intros [= <-]. split; [|done].
    by intros w ?%elem_of_nil.
  - intros [= <-]. split; [|done]. intros w Hw.
    apply scanWords_shape in Hw as [Hlen Hup].
    split; [done|]. split; [done|]. by apply allUpper_toUpperCase.
Qed.

Lemma extractWordsFromHtml_words_shape_sample :
  String.length "AMONG" = 5 ∧ allChars isUpper "AMONG" = true ∧
  toUpperCase "AMONG" = "AMONG".
Proof.
  assert (Hex : extractWordsFromHtml samplePage1 5 = Some ["ABODE"; "AMONG"; "ABODE"])
    by (vm_compute; reflexivity).
  destruct (extractWordsFromHtml_words_shape samplePage1 5 _ Hex) as [Hshape _].
  apply Hshape. apply (bool_decide_unpack _). vm_compute. exact I.
Defined.

Lemma extracted_word_shape html n pw w :
  extractWordsFromHtml html n = Some pw → w ∈ pw →
  String.length w = n ∧ toUpperCase w = w.
Proof.
  unfold extractWordsFromHtml. destruct n as [|n].
  - destruct (anyChar _ _); [done|]. intros [= <-]. by intros ?%elem_of_nil.
  - intros [= <-] Hw. apply scanWords_shape in Hw as [Hlen Hup].
    split; [done|]. by apply allUpper_toUpperCase.
Qed.

Lemma pageWordsAt_shape fetch pageUrl n p w :
  w ∈ pageWordsAt fetch pageUrl n p → String.length w = n ∧ toUpperCase w = w.
Proof.
  unfold pageWordsAt. destruct (fetch _) as [status statusText [html|]|name message];
    try by intros ?%elem_of_nil.
  destruct (extractWordsFromHtml html n) as [pw|] eqn:Hex; simpl;
    [|by intros ?%elem_of_nil].
  apply (extracted_word_shape html n pw w Hex).
Qed.

(** Where the words of a finished collection come from. *)
Lemma pageLoop_words_origin fetch baseUrl n :
  ∀ fuel p ws req out,
    collected (pageLoop fetch baseUrl n fuel p ws req) = Finished out →
    (∃ all, out = uniqueWords all) ∧
    ∀ w, w ∈ out →
      w ∈ ws ∨
      ∃ q, q ∈ fetchedPages (pageLoop fetch baseUrl n fuel p ws req) ∧ p ≤ q ∧
           w ∈ pageWordsAt fetch (pageUrlOf baseUrl) n q.
Proof.
  induction fuel as [|fuel IH]; intros p ws req out; [done|].
  assert (Hnil : ∀ (P : string → Prop), (∃ all, [] = uniqueWords all) ∧ ∀ w, w ∈ [] → P w).
  { intros P. split; [by exists []|]. by intros w ?%elem_of_nil. }
  assert (Hkeep : ∀ (P : string → Prop),
    (∃ all, uniqueWords ws = uniqueWords all) ∧ ∀ w, w ∈ uniqueWords ws → w ∈ ws ∨ P w).
  { intros P. split; [by exists ws|]. intros w Hw. left.
    by apply (uniqueFrom_elem ws [] w) in Hw as [? _]. }
  cbn [pageLoop].
  destruct (fetch (pageUrlOf baseUrl p)) as [status statusText body|name message] eqn:Hf;
    cbn [collected]; [|intros [= <-]; apply Hnil].
  destruct (ok status) eqn:Hok; cbn [negb].
  2:{ destruct (_ && _); cbn [collected]; intros [= <-]; [apply Hkeep|apply Hnil]. }
  destruct body as [html|]; cbn [collected]; [|intros [= <-]; apply Hnil].
  destruct (extractWordsFromHtml html n) as [pw|] eqn:Hex; cbn [collected]; [|done].
  assert (Hpw : pageWordsAt fetch (pageUrlOf baseUrl) n p = pw).
  { unfold pageWordsAt. by rewrite Hf, Hex. }
  destruct (chainsTo _ p) eqn:Hch; cbn [collected fetchedPages].
  - intros Hout. destruct (IH _ _ _ _ Hout) as [Hall Hw]. split; [done|].
    intros w Hin. destruct (Hw w Hin) as [Hws|(q & Hq & Hle & Hpage)].
    + apply elem_of_app in Hws as [?|?]; [by left|]. right. exists p.
      split; [|by rewrite Hpw].
      destruct (pageLoop_trace fetch baseUrl n fuel (p + 1) (ws ++ pw) (req ++ [p]))
        as (k & _ & ->).
      rewrite !elem_of_app, list_elem_of_singleton. left. by right.
    + right. exists q. split; [done|]. split; [lia|done].
  - intros [= <-]. split; [by eexists|]. intros w Hin.
    apply (uniqueFrom_elem _ [] w) in Hin as [Hin _].
    apply elem_of_app in Hin as [?|?]; [by left|]. right. exists p.
    split; [|by rewrite Hpw].
    rewrite elem_of_app, list_elem_of_singleton. by right.
Qed.

Lemma fetchWordListByPosition_returns_candidates_aux fetch rules fuel allWords :
  collected (fetchWordListByPosition fetch rules fuel) = Finished allWords →
  NoDup allWords ∧
  ∀ w, w ∈ allWords → String.length w = Rules.length rules ∧ toUpperCase w = w.
Proof.
  unfold fetchWordListByPosition.
  destruct (firstExactPosition rules) as [position|] eqn:Hp.
  2:{ intros [= <-]. split; [constructor|]. by intros w ?%elem_of_nil. }
  destruct (Rules.exact rules !! position) as [letter|] eqn:Hl.
  2:{ intros [= <-]. split; [constructor|]. by intros w ?%elem_of_nil. }
  intros Hout. destruct (pageLoop_words_origin _ _ _ _ _ _ _ _ Hout) as [[all ->] Hw].
  split; [apply uniqueFrom_NoDup|]. intros w Hin.
  destruct (Hw w Hin) as [?%elem_of_nil|(q & _ & _ & Hpage)]; [done|].
  by apply (pageWordsAt_shape _ _ _ _ _ Hpage).
Qed.

(** X3.  The list a finished collection returns has no duplicates, and
    every word in it was extracted from one of the pages requested in
    that run: it has [rules.length] characters, is in upper case and is
    never rejected by the length check of [checkRules]. *)
Theorem fetchWordListByPosition_returns_candidates
    (fetch : string → Fetched (option string)) (rules : WordleRules) (fuel : nat)
    (allWords : list string) :
  collected (fetchWordListByPosition fetch rules fuel) = Finished allWords →
  NoDup allWords ∧
  ∀ w, w ∈ allWords →
    (∃ position letter q,
       firstExactPosition rules = Some position ∧
       Rules.exact rules !! position = Some letter ∧
       q ∈ fetchedPages (fetchWordListByPosition fetch rules fuel) ∧
       w ∈ pageWordsAt fetch (pageUrlOf (seedBaseUrl rules position letter))
             (Rules.length rules) q) ∧
    String.length w = Rules.length rules ∧ toUpperCase w = w ∧
    rejectedBy w rules ≠ Some LengthCheck.
Proof.
  unfold fetchWordListByPosition.
  destruct (firstExactPosition rules) as [position|] eqn:Hp.
  2:{ intros [= <-]. split; [constructor|]. by intros w ?%elem_of_nil. }
  destruct (Rules.exact rules !! position) as [letter|] eqn:Hl.
  2:{ intros [= <-]. split; [constructor|]. by intros w ?%elem_of_nil. }
  intros Hout. destruct (pageLoop_words_origin _ _ _ _ _ _ _ _ Hout) as [[all ->] Hw].
  split; [apply uniqueFrom_NoDup|]. intros w Hin.
  destruct (Hw w Hin) as [?%elem_of_nil|(q & Hq & _ & Hpage)]; [done|].
  destruct (pageWordsAt_shape _ _ _ _ _ Hpage) as [Hlen Hup].
  split; [by exists position, letter, q|]. split; [done|]. split; [done|].
  destruct (rejectedBy_spec w rules) as (_ & Hlc & _). simpl in Hlc.
  intros Hr. apply Hlc in Hr. apply Hr. unfold lengthHolds. by rewrite Hup.
Qed.

Lemma fetchWordListByPosition_returns_candidates_sample :
  NoDup ["ABODE"; "AMONG"; "ADOPT"] ∧
  String.length "ADOPT" = Rules.length sampleRules.
Proof.
  assert (Hrun : collected (fetchWordListByPosition twoPages sampleRules 7) =
                 Finished ["ABODE"; "AMONG"; "ADOPT"]) by (vm_compute; reflexivity).
  destruct (fetchWordListByPosition_returns_candidates twoPages sampleRules 7 _ Hrun)
    as [Hnd Hw].
  split; [exact Hnd|].
  assert (Hin : "ADOPT" ∈ ["ABODE"; "AMONG"; "ADOPT"])
    by (apply (bool_decide_unpack _); vm_compute; exact I).
  destruct (Hw "ADOPT" Hin) as (_ & Hlen & _). exact Hlen.
Defined.

Lemma least_key_foldr (keys : list nat) :
  let least := foldr (λ k least, Some (match least with
                                        | Some k' => Nat.min k k'
                                        | None => k
                                        end)) None keys in
  (least = None ↔ keys = []) ∧
  ∀ m, least = Some m → m ∈ keys ∧ ∀ k, k ∈ keys → m ≤ k.
Proof.
  induction keys as [|a keys IH]; simpl.
  - split; [done|]. done.
  - split; [done|]. destruct IH as [IH0 IH]. intros m [= <-].
    destruct (foldr _ None keys) as [k'|] eqn:Hk.
    + destruct (IH k' eq_refl) as [Hin Hmin]. split.
      * destruct (Nat.min_spec a k') as [[_ ->]|[_ ->]];
          [apply elem_of_cons; by left|apply elem_of_cons; by right].
      * intros k [->|Hk']%elem_of_cons; [lia|]. specialize (Hmin k Hk'). lia.
    + split; [apply elem_of_cons; by left|].
      intros k [->|Hk']%elem_of_cons; [done|].
      assert (keys = []) as -> by (by apply IH0). by apply elem_of_nil in Hk'.
Qed.

Lemma exact_keys_spec (rules : WordleRules) k :
  k ∈ (fst <$> map_to_list (Rules.exact rules)) ↔ is_Some (Rules.exact rules !! k).
Proof.
  rewrite list_elem_of_fmap. split.
  - intros ([k' c] & -> & Hin). apply elem_of_map_to_list in Hin. by exists c.
  - intros [c Hc]. exists (k, c). split; [done|]. by apply elem_of_map_to_list.
Qed.

Lemma firstExactPosition_spec (rules : WordleRules) :
  (firstExactPosition rules = None ↔ Rules.exact rules = ∅) ∧
  ∀ p, firstExactPosition rules = Some p →
       is_Some (Rules.exact rules !! p) ∧
       ∀ k, is_Some (Rules.exact rules !! k) → p ≤ k.
Proof.
  unfold firstExactPosition.
  destruct (least_key_foldr (fst <$> map_to_list (Rules.exact rules))) as [Hnone Hsome].
  cbv zeta in Hnone, Hsome. split.
  - rewrite Hnone, <- map_to_list_empty_iff. split.
    + apply fmap_nil_inv.
    + by intros ->.
  - intros p Hp. destruct (Hsome p Hp) as [Hin Hmin]. split.
    + by apply exact_keys_spec.
    + intros k Hk. apply Hmin. by apply exact_keys_spec.
Qed.

(** What a run returns depends on the network only through the pages it
    requested. *)
Lemma pageLoop_local fetch fetch' baseUrl n :
  ∀ fuel p ws req,
    (∀ q, q ∈ fetchedPages (pageLoop fetch baseUrl n fuel p ws req) → p ≤ q →
          fetch' (pageUrlOf baseUrl q) = fetch (pageUrlOf baseUrl q)) →
    pageLoop fetch' baseUrl n fuel p ws req = pageLoop fetch baseUrl n fuel p ws req.
Proof.
  induction fuel as [|fuel IH]; intros p ws req H; [done|].
  assert (Hp : fetch' (pageUrlOf baseUrl p) = fetch (pageUrlOf baseUrl p)).
  { apply H; [apply pageLoop_requests_current|done]. }
  cbn [pageLoop] in H |- *. rewrite Hp.
  destruct (fetch (pageUrlOf baseUrl p)) as [status statusText body|name message]; [|done].
  destruct (negb (ok status)); [done|].
  destruct body as [html|]; [|done].
  destruct (extractWordsFromHtml html n) as [pageWords|]; [|done].
  destruct (chainsTo (getNextPageNumber html) p); [|done].
  apply IH. intros q Hq Hle. apply H; [done|lia].
Qed.

(** X4.  The collector reads the network at the pages of its seed and
    nowhere else: the seed is the exact-position rule the collector
    selects, and a second network that answers the pages the run
    requested at the seed address as the first one does gives the same
    run, whatever it answers at any other address.  Without an
    exact-position rule nothing is requested.  For a compiled rule set the
    seed position is one of 0..8 and the seed letter is an upper-case
    letter. *)
Theorem fetchWordListByPosition_reads_seed_pages
    (fetch fetch' : string → Fetched (option string)) (rules : WordleRules) (fuel : nat) :
  (Rules.exact rules = ∅ →
   fetchWordListByPosition fetch rules fuel =
   {| collected := Finished []; fetchedPages := [] |}) ∧
  (∀ position letter,
     firstExactPosition rules = Some position →
     Rules.exact rules !! position = Some letter →
     (∀ q, q ∈ fetchedPages (fetchWordListByPosition fetch rules fuel) →
           fetch' (pageUrlOf (seedBaseUrl rules position letter) q) =
           fetch (pageUrlOf (seedBaseUrl rules position letter) q)) →
     fetchWordListByPosition fetch' rules fuel = fetchWordListByPosition fetch rules fuel) ∧
  (∀ text position,
     rules = parseRules text → firstExactPosition rules = Some position →
     position ≤ 8 ∧
     ∃ letter, Rules.exact rules !! position = Some letter ∧ isUpper letter = true).
Proof.
  destruct (firstExactPosition_spec rules) as [Hnone Hsome]. split; [|split].
  - intros Hempty. unfold fetchWordListByPosition. by rewrite (proj2 Hnone Hempty).
  - intros position letter Hp Hl Hagree.
    unfold fetchWordListByPosition in *. rewrite Hp, Hl in *.
    apply pageLoop_local. intros q Hq _. by apply Hagree.
  - intros text position -> Hp. destruct (Hsome position Hp) as [[letter Hl] _].
    pose proof Hl as Hl'. unfold parseRules in Hl'.
    apply parseLines_exact in Hl' as [H|(line & digit & _ & Hm & _ & Hrange)].
    { unfold defaultRules in H. simpl in H. by rewrite lookup_empty in H. }
    split; [lia|]. exists letter. split; [done|].
    by destruct (exactMatch_shape _ _ _ Hm) as (d & _ & _ & ? & _).
Qed.

Lemma fetchWordListByPosition_reads_seed_pages_sample :
  fetchWordListByPosition secondPageBroken sampleRules 1 =
  fetchWordListByPosition twoPages sampleRules 1.
Proof.
  destruct (fetchWordListByPosition_reads_seed_pages twoPages secondPageBroken sampleRules 1)
    as (_ & Hlocal & _).
  apply (Hlocal 2 "O"%char); [vm_compute; reflexivity|vm_compute; reflexivity|].
  intros q Hq.
  assert (Hpages : fetchedPages (fetchWordListByPosition twoPages sampleRules 1) = [1])
    by (vm_compute; reflexivity).
  rewrite Hpages in Hq. apply list_elem_of_singleton in Hq. subst q.
  vm_compute. reflexivity.
Defined.

(** The run over a chain of pages that ends with a page declaring no
    successor. *)
Lemma pageLoop_success fetch baseUrl n :
  ∀ count fuel p ws req,
    (∀ q, p ≤ q < p + count →
       ∃ html, pageReadAt fetch (pageUrlOf baseUrl) n q html ∧
               getNextPageNumber html = Some (q + 1)) →
    (∃ html, pageReadAt fetch (pageUrlOf baseUrl) n (p + count) html ∧
             getNextPageNumber html ≠ Some (p + count + 1)) →
    count < fuel →
    pageLoop fetch baseUrl n fuel p ws req =
    {| collected := Finished (uniqueWords (ws ++ wordsOfPages fetch (pageUrlOf baseUrl) n p (S count)));
       fetchedPages := req ++ seq p (S count) |}.
Proof.
  induction count as [|count IH]; intros fuel p ws req Hchain Hlast Hfuel;
    (destruct fuel as [|fuel]; [lia|]).
  - destruct Hlast as (html & (status & statusText & Hf & Hok & [pw Hex]) & Hnext).
    rewrite Nat.add_0_r in *.
    rewrite (pageLoop_step _ _ _ _ _ _ _ _ _ _ _ Hf Hok Hex).
    destruct (chainsTo _ p) eqn:Hch; [by apply chainsTo_spec in Hch|].
    unfold wordsOfPages, pageWordsAt. simpl. rewrite Hf, Hex. simpl.
    by rewrite app_nil_r.
  - destruct (Hchain p) as (html & (status & statusText & Hf & Hok & [pw Hex]) & Hnext);
      [lia|].
    rewrite (pageLoop_step _ _ _ _ _ _ _ _ _ _ _ Hf Hok Hex).
    apply chainsTo_spec in Hnext. rewrite Hnext.
    rewrite (IH fuel (p + 1) (ws ++ pw) (req ++ [p])).
    + assert (Hpw : pageWordsAt fetch (pageUrlOf baseUrl) n p = pw).
      { unfold pageWordsAt. by rewrite Hf, Hex. }
      rewrite (wordsOfPages_cons _ _ _ p (S count)), Hpw, <- !app_assoc, Nat.add_1_r.
      done.
    + intros q Hq. apply Hchain. lia.
    + replace (p + 1 + count) with (p + S count) by lia. done.
    + lia.
Qed.

(** X5.  When the pages 1, ..., k-1 arrive, are read and each declares
    its successor, and page k arrives, is read and declares no successor
    (or another number), the collection requests exactly the pages 1..k
    and returns the words of these pages, in page order and without
    duplicates, whatever fuel beyond k the model is given. *)
Theorem fetchWordListByPosition_collects_chain
    (fetch : string → Fetched (option string)) (rules : WordleRules)
    (position k fuel : nat) (letter : ascii) :
  firstExactPosition rules = Some position →
  Rules.exact rules !! position = Some letter →
  let pageUrl := pageUrlOf (seedBaseUrl rules position letter) in
  let n := Rules.length rules in
  (∀ q, 1 ≤ q < k →
     ∃ html, pageReadAt fetch pageUrl n q html ∧ getNextPageNumber html = Some (q + 1)) →
  (∃ html, pageReadAt fetch pageUrl n k html ∧ getNextPageNumber html ≠ Some (k + 1)) →
  1 ≤ k ≤ fuel →
  fetchWordListByPosition fetch rules fuel =
  {| collected := Finished (uniqueWords (wordsOfPages fetch pageUrl n 1 k));
     fetchedPages := seq 1 k |}.
Proof.
  intros Hp Hl. cbv zeta. intros Hchain Hlast Hk.
  rewrite (fetchWordListByPosition_seeded _ _ _ _ _ Hp Hl).
  destruct k as [|count]; [lia|].
  apply (pageLoop_success fetch _ _ count fuel 1 [] []).
  - intros q Hq. apply Hchain. lia.
  - replace (1 + count) with (S count) by lia. done.
  - lia.
Qed.

Lemma fetchWordListByPosition_collects_chain_sample :
  fetchWordListByPosition twoPages sampleRules 9 =
  {| collected := Finished ["ABODE"; "AMONG"; "ADOPT"]; fetchedPages := [1; 2] |}.
Proof.
  rewrite (fetchWordListByPosition_collects_chain twoPages sampleRules 2 2 9 "O"%char).
  - vm_compute. reflexivity.
  - vm_compute. reflexivity.
  - vm_compute. reflexivity.
  - intros q Hq. assert (q = 1) as -> by lia. exists samplePage1. split.
    + exists 200, "OK". repeat split; [vm_compute; reflexivity..|].
      vm_compute. by eexists.
    + vm_compute. reflexivity.
  - exists samplePage2. split.
    + exists 200, "OK". repeat split; [vm_compute; reflexivity..|].
      vm_compute. by eexists.
    + vm_compute. discriminate.
  - lia.
Defined.

(** * Further properties of the string primitives *)

Lemma append_cons c (s t : string) : String c s +:+ t = String c (s +:+ t).
Proof. done. Qed.

Lemma append_nil_l (t : string) : EmptyString +:+ t = t.
Proof. done. Qed.

Lemma append_nil_r (s : string) : s +:+ EmptyString = s.
Proof. induction s as [|c s IH]; [done|]. by rewrite append_cons, IH. Qed.

Lemma append_assoc (s t u : string) : (s +:+ t) +:+ u = s +:+ t +:+ u.
Proof. induction s as [|c s IH]; [done|]. by rewrite !append_cons, IH. Qed.

Lemma allChars_append p (s t : string) :
  allChars p (s +:+ t) = allChars p s && allChars p t.
Proof.
  induction s as [|c s IH]; [done|]. rewrite append_cons. simpl.
  by rewrite IH, andb_assoc.
Qed.

Lemma stripPrefix_append (p s : string) : stripPrefix p (p +:+ s) = Some s.
Proof.
  induction p as [|c p IH]; [done|]. rewrite append_cons. simpl.
  rewrite decide_True by done. apply IH.
Qed.

(** [span] runs through a prefix that satisfies the predicate. *)
Lemma span_append p (s t : string) :
  allChars p s = true →
  span p (s +:+ t) = (s +:+ (span p t).1, (span p t).2).
Proof.
  induction s as [|c s IH].
  - intros _. rewrite !append_nil_l. by destruct (span p t).
  - rewrite append_cons. simpl. intros [Hc Hs]%andb_true_iff.
    by rewrite Hc, (IH Hs).
Qed.

Lemma decimalFrom_acc (s : string) :
  ∀ acc, decimalFrom acc s = acc * 10 ^ String.length s + decimalFrom 0 s.
Proof.
  induction s as [|c s IH]; intros acc; simpl; [lia|].
  rewrite (IH (acc + (acc + (acc + (acc + (acc + (acc + (acc + (acc + (acc + (acc + 0)))))))))
               + digitValue c)), (IH (digitValue c)).
  lia.
Qed.

Lemma decimal_cons c (s : string) :
  decimal (String c s) = digitValue c * 10 ^ String.length s + decimal s.
Proof. unfold decimal. simpl. apply decimalFrom_acc. Qed.

Lemma pretty_N_char_digit (d : N) :
  (d < 10)%N →
  isDigit (pretty_N_char d) = true ∧ digitValue (pretty_N_char d) = N.to_nat d.
Proof.
  intros Hd.
  assert (d = 0 ∨ d = 1 ∨ d = 2 ∨ d = 3 ∨ d = 4 ∨ d = 5 ∨ d = 6 ∨ d = 7 ∨ d = 8 ∨ d = 9)%N
    as Hcases by lia.
  repeat (destruct Hcases as [->|Hcases]; [by vm_compute|]). subst d. by vm_compute.
Qed.

Lemma pretty_N_go_digits (x : N) :
  ∀ s, allChars isDigit s = true →
       allChars isDigit (pretty_N_go x s) = true ∧
       (nonEmpty s = true ∨ (0 < x)%N → nonEmpty (pretty_N_go x s) = true) ∧
       decimal (pretty_N_go x s) = N.to_nat x * 10 ^ String.length s + decimal s.
Proof.
  induction (N.lt_wf_0 x) as [x _ IH]; intros s Hs.
  assert (x = 0 ∨ 0 < x)%N as [->|Hpos] by lia.
  - rewrite pretty_N_go_0. split; [done|]. split; [|simpl; lia].
    intros [?|?]; [done|lia].
  - rewrite pretty_N_go_step by done.
    destruct (pretty_N_char_digit (x `mod` 10)%N) as [Hd Hv]; [by apply N.mod_lt|].
    destruct (IH (x `div` 10)%N) with (s := String (pretty_N_char (x `mod` 10)) s)
      as (Hall & Hne & Hdec).
    { by apply N.div_lt. }
    { simpl. by rewrite Hd, Hs. }
    split; [done|]. split; [intros _; apply Hne; by left|].
    rewrite Hdec, decimal_cons, Hv. simpl String.length.
    pose proof (N.div_mod x 10 ltac:(done)) as Hx.
    assert (N.to_nat x = 10 * N.to_nat (x `div` 10) + N.to_nat (x `mod` 10)) as Hn by lia.
    rewrite Hn. rewrite Nat.pow_succ_r'. generalize (10 ^ String.length s). intros P. nia.
Qed.

(** The decimal numeral of a count reads back as the count. *)
Lemma showNat_digits (n : nat) :
  nonEmpty (showNat n) = true ∧ allChars isDigit (showNat n) = true ∧
  decimal (showNat n) = n.
Proof.
  unfold showNat, pretty, pretty_nat, pretty, pretty_N.
  destruct (decide (N.of_nat n = 0)%N) as [H0|Hne].
  - assert (n = 0) as -> by lia. done.
  - destruct (pretty_N_go_digits (N.of_nat n) EmptyString) as (Hall & Hnon & Hdec); [done|].
    split; [apply Hnon; right; lia|]. split; [done|].
    rewrite Hdec, Nat2N.id. cbn [String.length Nat.pow]. unfold decimal. simpl. lia.
Qed.

(** * Further properties of the page links *)

Lemma isDigit_notClosing (s : string) :
  allChars isDigit s = true → allChars notClosing s = true.
Proof.
  induction s as [|c s IH]; [done|]. simpl. intros [Hc Hs]%andb_true_iff.
  rewrite (IH Hs), andb_true_r. unfold notClosing.
  destruct (bool_decide (c = ">"%char)) eqn:Hgt; [|done].
  apply bool_decide_eq_true in Hgt. subst c. done.
Qed.

Lemma hrefPage_digits_htm (digits : string) :
  allChars isDigit digits = true → hrefPage (digits +:+ ".htm") = None.
Proof.
  induction digits as [|d ds IH]; [done|]. rewrite append_cons.
  simpl allChars. intros [Hd Hds]%andb_true_iff. cbn [hrefPage]. rewrite (IH Hds).
  unfold pageSuffix. cbn [stripPrefix].
  destruct (decide ("p"%char = d)) as [<-|]; [done|done].
Qed.

Lemma pageSuffix_page (digits : string) :
  nonEmpty digits = true → allChars isDigit digits = true →
  pageSuffix ("page" +:+ digits +:+ ".htm") = Some digits.
Proof.
  intros Hne Hall. unfold pageSuffix. rewrite stripPrefix_append.
  rewrite (span_append isDigit digits ".htm" Hall). simpl.
  by rewrite append_nil_r, Hne.
Qed.

Lemma hrefPage_found (x digits : string) :
  nonEmpty digits = true → allChars isDigit digits = true →
  hrefPage (x +:+ "page" +:+ digits +:+ ".htm") = Some digits.
Proof.
  intros Hne Hall. induction x as [|c x IH].
  - rewrite append_nil_l.
    pose proof (pageSuffix_page digits Hne Hall) as Hpage.
    pose proof (hrefPage_digits_htm digits Hall) as Hnone.
    rewrite !append_cons, append_nil_l in Hpage |- *.
    cbn [hrefPage]. rewrite Hnone.
    unfold pageSuffix at 1 2 3. cbn [stripPrefix].
    rewrite !decide_False by done. exact Hpage.
  - rewrite append_cons. cbn [hrefPage]. by rewrite IH.
Qed.

Lemma span_htm_closing (rest : string) :
  span notClosing (".htm>" +:+ rest) = (".htm", String ">"%char rest).
Proof. done. Qed.

Lemma nextLinkAt_found (x digits rest : string) :
  allChars notClosing x = true →
  nonEmpty digits = true → allChars isDigit digits = true →
  nextLinkAt ("<link rel=next href=" +:+ x +:+ "page" +:+ digits +:+ ".htm>" +:+ rest) =
  Some digits.
Proof.
  intros Hx Hne Hall. unfold nextLinkAt. rewrite stripPrefix_append.
  change (λ c : ascii, negb (bool_decide (c = ">"%char))) with notClosing.
  rewrite (span_append notClosing x _ Hx).
  rewrite (span_append notClosing "page" _ eq_refl).
  rewrite (span_append notClosing digits _ (isDigit_notClosing _ Hall)).
  rewrite span_htm_closing. cbn [fst snd nonEmpty].
  by apply hrefPage_found.
Qed.

Lemma nextLink_skips (pre s : string) :
  allChars notOpening pre = true → nextLink (pre +:+ s) = nextLink s.
Proof.
  induction pre as [|c pre IH]; [done|]. rewrite append_cons. simpl.
  intros [Hc Hpre]%andb_true_iff. unfold nextLinkAt. cbn [stripPrefix].
  destruct (decide ("<"%char = c)) as [<-|]; [done|]. by apply IH.
Qed.

Lemma nextLink_none (html : string) :
  allChars notOpening html = true → nextLink html = None.
Proof.
  intros H. pose proof (nextLink_skips html EmptyString H) as Hs.
  by rewrite append_nil_r in Hs.
Qed.

(** X6.  [getNextPageNumber] reads the page number of a next-page link:
    in a text whose first [<] opens a link of the form
    [<link rel=next href=...page<digits>.htm>] it returns the number the
    digits spell, for digits that spell an integer of at most 2^53, where
    [parseInt] is exact; in particular a link to the address the
    collector itself builds for a page [p] of at most 2^53 is read back
    as [p].  A text without any [<] declares no next page. *)
Theorem getNextPageNumber_reads_link (pre rest : string) :
  allChars notOpening pre = true →
  (∀ x digits,
     allChars notClosing x = true →
     nonEmpty digits = true → allChars isDigit digits = true →
     safeInteger (decimal digits) = true →
     getNextPageNumber
       (pre +:+ "<link rel=next href=" +:+ x +:+ "page" +:+ digits +:+ ".htm>" +:+ rest) =
     Some (decimal digits)) ∧
  (∀ baseUrl p,
     allChars notClosing baseUrl = true → p ≠ 1 → safeInteger p = true →
     getNextPageNumber
       (pre +:+ "<link rel=next href=" +:+ pageUrlOf baseUrl p +:+ ">" +:+ rest) =
     Some p) ∧
  getNextPageNumber pre = None.
Proof.
  intros Hpre.
  assert (Hdigits : ∀ x digits,
     allChars notClosing x = true →
     nonEmpty digits = true → allChars isDigit digits = true →
     getNextPageNumber
       (pre +:+ "<link rel=next href=" +:+ x +:+ "page" +:+ digits +:+ ".htm>" +:+ rest) =
     Some (decimal digits)).
  { intros x digits Hx Hne Hall. unfold getNextPageNumber.
    rewrite (nextLink_skips pre _ Hpre).
    pose proof (nextLinkAt_found x digits rest Hx Hne Hall) as Hat.
    rewrite append_cons in Hat |- *. cbn [nextLink]. rewrite Hat. simpl.
    by rewrite parseNat_digits. }
  split; [intros x digits Hx Hne Hall _; by apply Hdigits|]. split.
  - intros baseUrl p Hbase Hp _. unfold pageUrlOf.
    destruct (p =? 1) eqn:H1; [by apply Nat.eqb_eq in H1|].
    destruct (showNat_digits p) as (Hne & Hall & Hdec).
    rewrite !append_assoc.
    change (".htm" +:+ ">" +:+ rest) with (".htm>" +:+ rest).
    rewrite (Hdigits baseUrl (showNat p) Hbase Hne Hall). by rewrite Hdec.
  - unfold getNextPageNumber. by rewrite (nextLink_none pre Hpre).
Qed.

Lemma getNextPageNumber_reads_link_sample :
  getNextPageNumber
    ("words " +:+ "<link rel=next href=" +:+ pageUrlOf sampleBaseUrl 12 +:+ ">" +:+ " ABODE") =
  Some 12.
Proof.
  destruct (getNextPageNumber_reads_link "words " " ABODE") as (_ & Hurl & _);
    [reflexivity|].
  apply Hurl; [reflexivity|lia|reflexivity].
Defined.

(** * Further properties of the validator *)

Lemma colon_digits_split (w : string) :
  ∀ w' d d',
    allChars isDigit d = true → allChars isDigit d' = true →
    w +:+ ":" +:+ d = w' +:+ ":" +:+ d' → w = w' ∧ d = d'.
Proof.
  assert (Hno : ∀ u d d' : string, allChars isDigit d = true →
                                   d ≠ u +:+ ":" +:+ d').
  { intros u d d' Hd ->. rewrite allChars_append in Hd.
    apply andb_true_iff in Hd as [_ Hd]. done. }
  induction w as [|c w IH]; intros [|c' w'] d d' Hd Hd'.
  - repeat (rewrite append_cons || rewrite append_nil_l). by intros [= ->].
  - repeat (rewrite append_cons || rewrite append_nil_l). intros [= <- ->].
    by destruct (Hno w' _ d' Hd).
  - repeat (rewrite append_cons || rewrite append_nil_l). intros [= -> <-].
    by destruct (Hno w _ d Hd').
  - rewrite !(append_cons _ _ (":" +:+ _)). intros [= -> Heq].
    destruct (IH w' d d' Hd Hd' Heq) as [-> ->]. done.
Qed.

Lemma cacheKey_inj w w' n n' : cacheKey w n = cacheKey w' n' → w = w' ∧ n = n'.
Proof.
  unfold cacheKey. intros Heq.
  destruct (showNat_digits n) as (_ & Hd & Hn).
  destruct (showNat_digits n') as (_ & Hd' & Hn').
  destruct (colon_digits_split w w' _ _ Hd Hd' Heq) as [-> Hshow].
  split; [done|]. by rewrite <- Hn, <- Hn', Hshow.
Qed.

(** The cache after a lookup: the old cache, or the old cache with the
    verdict stored under the key of the lookup, which was free. *)
Lemma validateWordExistence_cache fetch W N known :
  let r := validateWordExistence fetch W N known in
  let key := cacheKey (toLowerCase W) N in
  (known !! key = Some (verdict r) ∧ cache r = known ∧ requests r = []) ∨
  (known !! key = None ∧ cache r = <[key := verdict r]> known ∧
   (requests r = [] ∧ String.length W ≠ N ∨
    requests r = [DICT_API_URL +:+ toLowerCase W] ∧ String.length W = N)).
Proof.
  cbv zeta. unfold validateWordExistence.
  destruct (known !! cacheKey (toLowerCase W) N) as [v|] eqn:Hk; [by left|].
  right. split; [done|]. rewrite length_toLowerCase.
  destruct (String.length W =? N) eqn:Hlen; cbn [negb].
  - apply Nat.eqb_eq in Hlen.
    destruct (fetch _) as [status statusText body|name message];
      [destruct (ok status); [|destruct (status =? 404)]|]; simpl; auto.
  - apply Nat.eqb_neq in Hlen. simpl. auto.
Qed.

(** X7.  The cache key of the validator identifies the lookup: two
    (word, length) pairs have the same key only when the words are equal
    and the lengths are equal, although the key is a plain concatenation
    and the word may itself hold colons and digits.  A lookup therefore
    never reads or changes the entry of another pair. *)
Theorem cacheKey_identifies_lookup (W W' : string) (N N' : nat) :
  (cacheKey W N = cacheKey W' N' ↔ W = W' ∧ N = N') ∧
  ((toLowerCase W', N') ≠ (toLowerCase W, N) →
   ∀ fetch known,
     cache (validateWordExistence fetch W N known) !! cacheKey (toLowerCase W') N' =
     known !! cacheKey (toLowerCase W') N').
Proof.
  split.
  - split; [apply cacheKey_inj|]. by intros [-> ->].
  - intros Hne fetch known.
    destruct (validateWordExistence_cache fetch W N known) as [(_ & -> & _)|(_ & -> & _)];
      [done|].
    apply lookup_insert_ne. intros Heq. apply cacheKey_inj in Heq as [Hw Hn].
    apply Hne. by rewrite Hw, Hn.
Qed.

Lemma cacheKey_identifies_lookup_sample :
  cache (validateWordExistence unreachable "a:1" 3 ∅) !! cacheKey (toLowerCase "a") 13 =
  (∅ : gmap string bool) !! cacheKey (toLowerCase "a") 13.
Proof.
  destruct (cacheKey_identifies_lookup "a:1" "a" 3 13) as [_ Hother].
  apply Hother. vm_compute. discriminate.
Defined.

(** X8.  A lookup never overwrites the cache: every entry present before
    is present, with the same verdict, afterwards.  It sends at most one
    request, and only for a word that was not cached and has the required
    length; whatever happens, the verdict it returns is in the cache
    afterwards. *)
Theorem validateWordExistence_cache_grows
    (fetch : string → Fetched unit) (W : string) (N : nat) (known : gmap string bool) :
  let r := validateWordExistence fetch W N known in
  let key := cacheKey (toLowerCase W) N in
  (∀ k v, known !! k = Some v → cache r !! k = Some v) ∧
  cache r !! key = Some (verdict r) ∧
  (∀ k, k ≠ key → cache r !! k = known !! k) ∧
  List.length (requests r) ≤ 1 ∧
  (requests r ≠ [] →
     known !! key = None ∧ String.length W = N ∧
     requests r = [DICT_API_URL +:+ toLowerCase W]).
Proof.
  cbv zeta.
  pose proof (validateWordExistence_records fetch W N known) as Hrec. cbv zeta in Hrec.
  destruct (validateWordExistence_cache fetch W N known)
    as [(Hk & Hc & Hr)|(Hk & Hc & Hr)]; rewrite Hc in *.
  - rewrite Hr. repeat split; try done. simpl. lia.
  - split; [|split; [done|split; [|split]]].
    + intros k v Hkv. rewrite lookup_insert_ne; [done|]. intros <-. congruence.
    + intros k Hne. by rewrite lookup_insert_ne.
    + destruct Hr as [[-> _]|[-> _]]; simpl; lia.
    + destruct Hr as [[-> _]|[-> Hlen]]; [done|]. done.
Qed.

Lemma validateWordExistence_cache_grows_sample :
  cache (validateWordExistence unreachable "crane" 5 {["stone:5" := false]}) !! "stone:5" =
  Some false.
Proof.
  destruct (validateWordExistence_cache_grows unreachable "crane" 5 {["stone:5" := false]})
    as (Hkeep & _).
  apply Hkeep. vm_compute. reflexivity.
Defined.

(** * Further properties of the request executor *)

Lemma backoff_total (delay k : nat) :
  sum_list ((λ j, delay * 2 ^ j) <$> seq 0 k) = delay * (2 ^ k - 1).
Proof.
  induction k as [|k IH]; [simpl; lia|].
  rewrite seq_S, fmap_app, sum_list_with_app, IH. simpl.
  assert (1 ≤ 2 ^ k) by (apply Nat.neq_0_lt_0, Nat.pow_nonzero; lia). nia.
Qed.

(** X9.  A call of the executor sends at most [maxRetries] requests.
    Between two requests it waits, and the waits are [delay], [2 delay],
    [4 delay], ...: with [a] requests sent there were [a - 1] waits, of
    [delay (2^(a-1) - 1)] milliseconds in all, at most
    [delay (2^(maxRetries-1) - 1)].  Without an API key nothing is sent. *)
Theorem handleGeminiApiCall_bounded
    (fetch : nat → string → Fetched JsonBody) (apiKey : string) (maxRetries delay : nat) :
  let call := handleGeminiApiCall fetch apiKey maxRetries delay in
  attempts call ≤ maxRetries ∧
  waits call = (λ j, delay * 2 ^ j) <$> seq 0 (attempts call - 1) ∧
  sum_list (waits call) = delay * (2 ^ (attempts call - 1) - 1) ∧
  sum_list (waits call) ≤ delay * (2 ^ (maxRetries - 1) - 1) ∧
  (apiKey = EmptyString →
   call = {| result := Throws "API Key is required."; attempts := 0; waits := [] |}).
Proof.
  cbv zeta.
  assert (Hmain : attempts (handleGeminiApiCall fetch apiKey maxRetries delay) ≤ maxRetries ∧
    waits (handleGeminiApiCall fetch apiKey maxRetries delay) =
      (λ j, delay * 2 ^ j) <$> seq 0 (attempts (handleGeminiApiCall fetch apiKey maxRetries delay) - 1)).
  { unfold handleGeminiApiCall. destruct (nonEmpty apiKey); cbn [negb].
    - destruct maxRetries as [|m]; [simpl; split; [lia|done]|].
      destruct (attemptLoop_backoff fetch (GEMINI_API_URL +:+ "?key=" +:+ apiKey)
                  (S m) 0 delay []) as (k & Hk & Ha & Hw); [lia|].
      rewrite Ha, Hw. split; [lia|]. simpl. do 2 f_equal. lia.
    - simpl. split; [lia|done]. }
  destruct Hmain as [Hle Hw]. split; [done|]. split; [done|].
  rewrite Hw at 1 2. rewrite backoff_total. split; [done|]. split.
  - apply Nat.mul_le_mono_l.
    assert (2 ^ (attempts (handleGeminiApiCall fetch apiKey maxRetries delay) - 1)
            ≤ 2 ^ (maxRetries - 1)) by (apply Nat.pow_le_mono_r; lia).
    lia.
  - intros ->. done.
Qed.

Lemma handleGeminiApiCall_bounded_sample :
  attempts (handleGeminiApiCall serverErrorThenSuccess "key" 5 1000) ≤ 5 ∧
  sum_list (waits (handleGeminiApiCall serverErrorThenSuccess "key" 5 1000)) ≤ 15000 ∧
  handleGeminiApiCall serverErrorThenSuccess EmptyString 5 1000 =
    {| result := Throws "API Key is required."; attempts := 0; waits := [] |}.
Proof.
  destruct (handleGeminiApiCall_bounded serverErrorThenSuccess "key" 5 1000)
    as (Ha & _ & _ & Hsum & _).
  destruct (handleGeminiApiCall_bounded serverErrorThenSuccess EmptyString 5 1000)
    as (_ & _ & _ & _ & Hkey).
  split; [exact Ha|]. split; [exact Hsum|]. apply Hkey. reflexivity.
Defined.

Lemma attemptLoop_returns fetch url :
  ∀ remaining i delay waited j,
    result (attemptLoop fetch url remaining i delay waited) = Returns j →
    ∃ k status statusText,
      k < remaining ∧
      attempts (attemptLoop fetch url remaining i delay waited) = S (i + k) ∧
      fetch (i + k) url =
        Response status statusText (match j with
                                    | Some r => JsonObject r
                                    | None => JsonNull
                                    end) ∧
      ok status = true ∧
      ∀ i', i ≤ i' < i + k → attemptFails (fetch i' url).
Proof.
  induction remaining as [|remaining IH]; intros i delay waited j; [done|].
  assert (Hretry : attemptFails (fetch i url) →
    result (attemptLoop fetch url remaining (S i) (delay * 2) (waited ++ [delay])) = Returns j →
    ∃ k status statusText,
      k < S remaining ∧
      attempts (attemptLoop fetch url remaining (S i) (delay * 2) (waited ++ [delay])) =
        S (i + k) ∧
      fetch (i + k) url =
        Response status statusText (match j with
                                    | Some r => JsonObject r
                                    | None => JsonNull
                                    end) ∧
      ok status = true ∧
      ∀ i', i ≤ i' < i + k → attemptFails (fetch i' url)).
  { intros Hfail Hres. destruct (IH _ _ _ _ Hres) as (k & s & st & Hk & Ha & Hf & Hok & Hbefore).
    exists (S k), s, st. replace (i + S k) with (S i + k) by lia.
    repeat split; try done; [lia|].
    intros i' Hi'. destruct (decide (i' = i)) as [->|]; [done|]. apply Hbefore. lia. }
  cbn [attemptLoop].
  destruct (fetch i url) as [status statusText body|name message] eqn:Hf.
  - destruct (ok status) eqn:Hok.
    + destruct body as [e| |r].
      * destruct (remaining =? 0); cbn [result]; [done|].
        apply Hretry. simpl. right. by eexists.
      * cbn [result attempts]. intros [= <-]. exists 0, status, statusText.
        rewrite Nat.add_0_r. repeat split; try done; try lia.
      * cbn [result attempts]. intros [= <-]. exists 0, status, statusText.
        rewrite Nat.add_0_r. repeat split; try done; try lia.
    + assert (Hfail : attemptFails (Response status statusText body)) by (by left).
      destruct (remaining =? 0).
      * rewrite andb_false_r. by destruct body.
      * destruct (status =? 429); cbn [andb negb]; [by apply Hretry|].
        destruct body; by apply Hretry.
  - destruct (remaining =? 0); cbn [result]; [done|]. by apply Hretry.
Qed.

(** X10.  The executor returns a payload only from a success response:
    when a call returns, its last request was answered with a status in
    200..299 and the value returned is the JSON body of that answer; every
    request before it had failed. *)
Theorem handleGeminiApiCall_returns_success_body
    (fetch : nat → string → Fetched JsonBody) (apiKey : string) (maxRetries delay : nat)
    (payload : option GeminiResponse) :
  let call := handleGeminiApiCall fetch apiKey maxRetries delay in
  let url := GEMINI_API_URL +:+ "?key=" +:+ apiKey in
  result call = Returns payload →
  ∃ i status statusText,
    attempts call = S i ∧ i < maxRetries ∧
    fetch i url = Response status statusText (match payload with
                                              | Some r => JsonObject r
                                              | None => JsonNull
                                              end) ∧
    ok status = true ∧
    ∀ i', i' < i → attemptFails (fetch i' url).
Proof.
  cbv zeta. unfold handleGeminiApiCall. destruct (nonEmpty apiKey); cbn [negb]; [|done].
  intros Hres. destruct (attemptLoop_returns _ _ _ _ _ _ _ Hres)
    as (k & status & statusText & Hk & Ha & Hf & Hok & Hbefore).
  exists k, status, statusText. repeat split; try done.
  intros i' Hi'. apply Hbefore. lia.
Qed.

Lemma handleGeminiApiCall_returns_success_body_sample :
  ∃ i status statusText,
    attempts (handleGeminiApiCall serverErrorThenSuccess "key" 5 1000) = S i ∧
    i < 5 ∧
    serverErrorThenSuccess i (GEMINI_API_URL +:+ "?key=" +:+ "key") =
      Response status statusText (JsonObject samplePayload) ∧
    ok status = true ∧
    ∀ i', i' < i →
      attemptFails (serverErrorThenSuccess i' (GEMINI_API_URL +:+ "?key=" +:+ "key")).
Proof.
  apply (handleGeminiApiCall_returns_success_body serverErrorThenSuccess "key" 5 1000
           (Some samplePayload)).
  vm_compute. reflexivity.
Defined.

(** A failed attempt that is not the last is followed by a wait and the
    next attempt. *)
Lemma attemptLoop_retries_failed fetch url remaining i delay waited :
  attemptFails (fetch i url) →
  attemptLoop fetch url (S (S remaining)) i delay waited =
  attemptLoop fetch url (S remaining) (S i) (delay * 2) (waited ++ [delay]).
Proof.
  intros H. cbn [attemptLoop].
  destruct (fetch i url) as [status statusText body|name message]; [|done].
  cbn [Nat.eqb negb]. rewrite andb_true_r. destruct H as [Hok|[e ->]].
  - rewrite Hok. destruct (status =? 429); [done|]. by destruct body.
  - destruct (ok status); [done|]. by destruct (status =? 429).
Qed.

Lemma attemptLoop_all_fail fetch url :
  ∀ remaining i delay waited,
    (∀ k, k < remaining → attemptFails (fetch (i + k) url)) →
    attemptLoop fetch url (S remaining) i delay waited =
    attemptLoop fetch url 1 (i + remaining) (delay * 2 ^ remaining)
      (waited ++ ((λ j, delay * 2 ^ j) <$> seq 0 remaining)).
Proof.
  induction remaining as [|remaining IH]; intros i delay waited Hfail.
  - simpl seq. simpl fmap. rewrite app_nil_r, Nat.add_0_r, Nat.pow_0_r, Nat.mul_1_r. done.
  - rewrite attemptLoop_retries_failed.
    2:{ specialize (Hfail 0). rewrite Nat.add_0_r in Hfail. apply Hfail. lia. }
    rewrite IH.
    2:{ intros k Hk. replace (S i + k) with (i + S k) by lia. apply Hfail. lia. }
    f_equal; [lia|rewrite Nat.pow_succ_r'; lia|].
    rewrite <- app_assoc. f_equal. cbn [seq fmap list_fmap app]. f_equal; [simpl; lia|].
    rewrite <- (fmap_S_seq 0 remaining), <- list_fmap_compose.
    apply list_fmap_ext. intros _ j _. simpl. lia.
Qed.

(** X11.  When every attempt fails, the executor gives up after exactly
    [maxRetries] requests and [maxRetries - 1] waits and throws the error
    of the last attempt: the timeout message when that attempt was
    aborted by its timer, and the status diagnostic, 429 included, when
    it was answered with a failure status and a JSON object. *)
Theorem handleGeminiApiCall_gives_up
    (fetch : nat → string → Fetched JsonBody) (apiKey : string) (maxRetries delay : nat) :
  let call := handleGeminiApiCall fetch apiKey maxRetries delay in
  let url := GEMINI_API_URL +:+ "?key=" +:+ apiKey in
  nonEmpty apiKey = true → 1 ≤ maxRetries →
  (∀ i, i < maxRetries → attemptFails (fetch i url)) →
  attempts call = maxRetries ∧
  waits call = (λ j, delay * 2 ^ j) <$> seq 0 (maxRetries - 1) ∧
  (∃ message, result call = Throws message) ∧
  (∀ message, fetch (maxRetries - 1) url = Rejects "AbortError" message →
              result call = Throws timeoutMessage) ∧
  (∀ status statusText r,
     fetch (maxRetries - 1) url = Response status statusText (JsonObject r) →
     result call = Throws (failureMessage status (serverMessage (Some r) statusText))).
Proof.
  cbv zeta. intros Hkey Hmax Hfail. unfold handleGeminiApiCall. rewrite Hkey. cbn [negb].
  destruct maxRetries as [|m]; [lia|].
  rewrite attemptLoop_all_fail by (intros k Hk; apply Hfail; lia).
  replace (S m - 1) with m by lia. simpl plus. rewrite app_nil_l.
  specialize (Hfail m ltac:(lia)). cbn [attemptLoop Nat.eqb negb].
  destruct (fetch m _) as [status statusText body|name message].
  - rewrite andb_false_r. destruct Hfail as [Hok|[e ->]].
    + rewrite Hok. destruct body as [e| |r]; cbn [result attempts waits].
      * repeat split; try done. by eexists.
      * repeat split; try done. by eexists.
      * repeat split; try done; [by eexists|]. by intros s st r' [= -> -> ->].
    + destruct (ok status); cbn [result attempts waits]; repeat split; try done;
        by eexists.
  - cbn [result attempts waits]. repeat split; try done; [by eexists|].
    intros msg [= -> _]. done.
Qed.

Lemma handleGeminiApiCall_gives_up_sample :
  attempts (handleGeminiApiCall (λ _ _, Response 429 "Too Many Requests"
              (JsonObject {| candidateText := None; errorMessage := Some "quota" |}))
            "key" 3 1000) = 3.
Proof.
  apply (handleGeminiApiCall_gives_up (λ _ _, Response 429 "Too Many Requests"
           (JsonObject {| candidateText := None; errorMessage := Some "quota" |}))
           "key" 3 1000).
  - reflexivity.
  - lia.
  - intros i _. left. reflexivity.
Defined.

(** * Further properties of the rule compiler *)

Lemma mapChars_append f (s t : string) :
  mapChars f (s +:+ t) = mapChars f s +:+ mapChars f t.
Proof. induction s as [|c s IH]; [done|]. rewrite !append_cons. simpl. by rewrite IH. Qed.

Lemma split_append sep (s t : string) :
  split sep (s +:+ String sep t) = split sep s ++ split sep t.
Proof.
  induction s as [|c s IH].
  - rewrite append_nil_l. simpl. by rewrite decide_True.
  - rewrite append_cons. simpl. destruct (decide (c = sep)); rewrite IH; [done|].
    by destruct (split_cons_form sep s) as (cur & rest & ->).
Qed.

Lemma sourceLines_append (a b : string) :
  sourceLines (a +:+ String LF b) = sourceLines a ++ sourceLines b.
Proof.
  unfold sourceLines, toUpperCase. rewrite mapChars_append. cbn [mapChars].
  change (upcase LF) with LF. by rewrite split_append, fmap_app, filter_app.
Qed.

Lemma parseRules_append (a b : string) :
  parseRules (a +:+ String LF b) = parseLines (sourceLines b) (parseRules a).
Proof. unfold parseRules. by rewrite sourceLines_append, parseLines_app. Qed.

(** X12.  Rule texts are compiled line by line: the rule set of a text
    followed by a line break and a second text is the rule set of the
    first text processed further with the lines of the second.  White
    space around lines and empty lines do not matter, so a second text
    without any non-blank line changes nothing. *)
Theorem parseRules_line_by_line (a b : string) :
  sourceLines (a +:+ String LF b) = sourceLines a ++ sourceLines b ∧
  parseRules (a +:+ String LF b) = parseLines (sourceLines b) (parseRules a) ∧
  (sourceLines b = [] → parseRules (a +:+ String LF b) = parseRules a).
Proof.
  split; [apply sourceLines_append|]. split; [apply parseRules_append|].
  intros Hb. by rewrite parseRules_append, Hb.
Qed.

Lemma parseRules_line_by_line_sample :
  parseRules ("O AT 3" +:+ String LF "     ") = parseRules "O AT 3".
Proof.
  destruct (parseRules_line_by_line "O AT 3" "     ") as (_ & _ & Hblank).
  apply Hblank. vm_compute. reflexivity.
Defined.

Lemma upcase_downcase c : upcase (downcase c) = upcase c.
Proof. destruct c as [[] [] [] [] [] [] [] []]; by vm_compute. Qed.


Lemma toUpperCase_toLowerCase (s : string) : toUpperCase (toLowerCase s) = toUpperCase s.
Proof.
  unfold toUpperCase, toLowerCase. induction s as [|c s IH]; [done|]. simpl.
  by rewrite upcase_downcase, IH.
Qed.





Lemma absentMatch_at_line c rest : absentMatch (String c (" AT " +:+ rest)) = None.
Proof. unfold absentMatch. simpl. by destruct (decide _). Qed.

Lemma laterPatterns_absent rules line :
  Rules.absent (laterPatterns rules line) = Rules.absent rules ++ absentLettersOfLine line.
Proof.
  unfold laterPatterns, absentLettersOfLine. destruct (absentMatch line); [done|].
  rewrite app_nil_r. by destruct (presentMatch line), (lengthMatch line).
Qed.

Lemma parseLine_absent rules line :
  Rules.absent (parseLine rules line) = Rules.absent rules ++ absentLettersOfLine line.
Proof.
  unfold parseLine. destruct (exactMatch line) as [[letter digit]|] eqn:He;
    [|apply laterPatterns_absent].
  cbv zeta. destruct (_ && _); [|apply laterPatterns_absent].
  apply exactMatch_shape in He as (d & -> & _). unfold absentLettersOfLine.
  rewrite absentMatch_at_line. simpl. by rewrite app_nil_r.
Qed.

Lemma parseLines_absent lines :
  ∀ rules, Rules.absent (parseLines lines rules) =
           Rules.absent rules ++ concat (absentLettersOfLine <$> lines).
Proof.
  induction lines as [|line lines IH]; intros rules; [by rewrite app_nil_r|].
  change (parseLines (line :: lines) rules) with (parseLines lines (parseLine rules line)).
  rewrite IH, parseLine_absent, <- app_assoc. done.
Qed.

Lemma parseLine_keeps_keys rules line :
  (∀ p, is_Some (Rules.exact rules !! p) → is_Some (Rules.exact (parseLine rules line) !! p)) ∧
  (∀ l, is_Some (Rules.present rules !! l) →
        is_Some (Rules.present (parseLine rules line) !! l)).
Proof.
  unfold parseLine, laterPatterns.
  destruct (exactMatch line) as [[letter digit]|]; cbv zeta;
    [destruct (_ && _)|];
    try (destruct (absentMatch line), (presentMatch line), (lengthMatch line));
    simpl; split; intros k Hk; try done;
    by apply lookup_insert_is_Some'; right.
Qed.

Lemma parseLines_keeps_keys lines :
  ∀ rules,
    (∀ p, is_Some (Rules.exact rules !! p) →
          is_Some (Rules.exact (parseLines lines rules) !! p)) ∧
    (∀ l, is_Some (Rules.present rules !! l) →
          is_Some (Rules.present (parseLines lines rules) !! l)).
Proof.
  induction lines as [|line lines IH]; intros rules; [done|].
  change (parseLines (line :: lines) rules) with (parseLines lines (parseLine rules line)).
  destruct (IH (parseLine rules line)) as [He Hp].
  destruct (parseLine_keeps_keys rules line) as [He' Hp'].
  split; intros k Hk; [apply He, He', Hk|apply Hp, Hp', Hk].
Qed.

(** X14.  Compiling further lines only adds to a rule set: the absent
    letters of the further absence lines are appended, in line order and
    with their repetitions, to the ones already there; every position
    constrained by [exact] and every letter constrained by [present]
    stays constrained. *)
Theorem parseRules_only_adds (a b : string) :
  Rules.absent (parseRules (a +:+ String LF b)) =
    Rules.absent (parseRules a) ++ concat (absentLettersOfLine <$> sourceLines b) ∧
  (∀ p, is_Some (Rules.exact (parseRules a) !! p) →
        is_Some (Rules.exact (parseRules (a +:+ String LF b)) !! p)) ∧
  (∀ l, is_Some (Rules.present (parseRules a) !! l) →
        is_Some (Rules.present (parseRules (a +:+ String LF b)) !! l)).
Proof.
  rewrite parseRules_append.
  split; [apply parseLines_absent|]. apply parseLines_keeps_keys.
Qed.

Lemma parseRules_only_adds_sample :
  is_Some (Rules.exact (parseRules ("O AT 3" +:+ String LF "NO S, S")) !! 2).
Proof.
  destruct (parseRules_only_adds "O AT 3" "NO S, S") as (_ & Hexact & _).
  apply Hexact. vm_compute. by eexists.
Defined.

(** ** The letters of a compiled rule set *)

Lemma absentTail_chars (s : string) :
  ∀ group, absentTail s = Some group → allChars isAbsentChar group = true.
Proof.
  induction s as [|c s IH]; intros group; [done|]. cbn [absentTail].
  destruct (isSpace c); [|done].
  destruct (absentTail s) as [g|]; [intros [= <-]; by apply IH|].
  destruct (nonEmpty s && allChars isAbsentChar s) eqn:H; [|done].
  intros [= <-]. by apply andb_true_iff in H as [_ ?].
Qed.

Lemma length_rev_app (s : string) :
  ∀ acc, String.length (String.rev_app s acc) = String.length s + String.length acc.
Proof.
  induction s as [|c s IH]; intros acc; [done|]. simpl. rewrite IH. simpl. lia.
Qed.

Lemma dropWhile_head q (s : string) c t : dropWhile q s = String c t → q c = false.
Proof.
  induction s as [|a s IH]; [done|]. simpl. destruct (q a) eqn:Ha; [done|].
  by intros [= <- _].
Qed.

(** A piece that trims to one character: the character is one of the
    piece and is not white space. *)
Lemma trim_single p (l : string) c :
  allChars p l = true → trim l = String c EmptyString →
  p c = true ∧ isSpace c = false.
Proof.
  unfold trim, trimEnd, trimStart, String.rev. intros Hl Htrim.
  set (v := dropWhile isSpace (String.rev_app (dropWhile isSpace l) EmptyString)) in *.
  assert (Hv : allChars p v = true).
  { apply allChars_dropWhile. rewrite allChars_rev_app, andb_true_r.
    by apply allChars_dropWhile. }
  assert (Hlen : String.length v = 1).
  { pose proof (length_rev_app v EmptyString) as H. rewrite Htrim in H. simpl in H. lia. }
  destruct v as [|c' [|c'' v']] eqn:Hveq; simpl in Hlen; try lia. subst v.
  simpl in Htrim. injection Htrim as ->.
  split.
  - simpl in Hv. by apply andb_true_iff in Hv as [? _].
  - by apply (dropWhile_head isSpace (String.rev_app (dropWhile isSpace l) EmptyString)
                 c EmptyString).
Qed.

Lemma absentLetters_upper group c :
  allChars isAbsentChar group = true → c ∈ absentLetters group → isUpper c = true.
Proof.
  unfold absentLetters. intros Hgroup (piece & Hin & Hc)%list_elem_of_omap.
  destruct (trim piece) as [|c' [|]] eqn:Htrim; try done. injection Hc as ->.
  destruct (trim_single isAbsentChar piece c) as [Habs Hsp];
    [by apply (split_allChars _ ","%char group)|done|].
  destruct (trim_single (λ c, negb (bool_decide (c = ","%char))) piece c) as [Hcomma _];
    [by apply (split_no_separator ","%char group)|done|].
  unfold isAbsentChar in Habs. apply negb_true_iff in Hcomma. rewrite Hcomma in Habs.
  destruct (bool_decide (c = " "%char)) eqn:Hspace.
  { apply bool_decide_eq_true in Hspace. subst c. done. }
  by rewrite !orb_false_r in Habs.
Qed.

Lemma absentLettersOfLine_upper line c :
  c ∈ absentLettersOfLine line → isUpper c = true.
Proof.
  unfold absentLettersOfLine. destruct (absentMatch line) as [group|] eqn:Hm;
    [|by intros ?%elem_of_nil].
  apply absentLetters_upper. unfold absentMatch in Hm.
  destruct (stripPrefix "NO" line) as [rest|]; [|done]. by apply (absentTail_chars rest).
Qed.

Lemma elem_of_concat {A} (x : A) (ls : list (list A)) :
  x ∈ concat ls → ∃ l, x ∈ l ∧ l ∈ ls.
Proof.
  induction ls as [|l ls IH]; simpl; [by intros ?%elem_of_nil|].
  intros [Hx|Hx]%elem_of_app.
  - exists l. split; [done|]. by left.
  - destruct (IH Hx) as (l' & ? & ?). exists l'. split; [done|]. by right.
Qed.

(** X15.  Every letter stored in a compiled rule set is one of the
    letters A-Z in upper case: the letters required by [exact], the keys
    of [present] and the members of [absent].  The evaluator, which
    upper-cases the candidate, therefore compares letters of one case. *)
Theorem parseRules_letters_upper_case (text : string) :
  (∀ p letter, Rules.exact (parseRules text) !! p = Some letter → isUpper letter = true) ∧
  (∀ letter positions, Rules.present (parseRules text) !! letter = Some positions →
                       isUpper letter = true) ∧
  (∀ letter, letter ∈ Rules.absent (parseRules text) → isUpper letter = true).
Proof.
  split; [|split].
  - intros p letter H. unfold parseRules in H.
    apply parseLines_exact in H as [H|(line & digit & _ & Hm & _)].
    { unfold defaultRules in H. simpl in H. by rewrite lookup_empty in H. }
    by apply exactMatch_shape in Hm as (d & _ & _ & Hup & _).
  - intros letter positions H. unfold parseRules in H.
    apply parseLines_present in H as [H|(line & _ & Hm & _)].
    { unfold defaultRules in H. simpl in H. by rewrite lookup_empty in H. }
    unfold presentMatch in Hm. destruct line as [|c rest]; [done|].
    destruct (isUpper c) eqn:Hc; [|done].
    destruct (stripPrefix " IN WORD" rest); [|done]. by injection Hm as <-.
  - intros letter. unfold parseRules. rewrite parseLines_absent. simpl.
    intros (letters & Hin & (line & -> & _)%list_elem_of_fmap)%elem_of_concat.
    by apply (absentLettersOfLine_upper line).
Qed.

Lemma parseRules_letters_upper_case_sample : isUpper "s"%char = false ∧ isUpper "S"%char = true.
Proof.
  split; [reflexivity|].
  destruct (parseRules_letters_upper_case "no s, t") as (_ & _ & Habsent).
  apply Habsent. apply (bool_decide_unpack _). vm_compute. exact I.
Defined.

Lemma isUpper_not_space c : isUpper c = true → isSpace c = false.
Proof.
  unfold isUpper, isSpace. rewrite inRange_spec. intros H.
  apply orb_false_iff. split.
  - apply not_true_iff_false. rewrite inRange_spec. lia.
  - apply Nat.eqb_neq. lia.
Qed.

Lemma isDigit_upcase c : isDigit c = true → upcase c = c.
Proof.
  unfold upcase, isDigit, isLower. rewrite inRange_spec. intros H.
  destruct (inRange 97 122 c) eqn:Hl; [|done]. apply inRange_spec in Hl. lia.
Qed.

Lemma sourceLines_exactLine letter digit :
  isUpper letter = true → isDigit digit = true →
  sourceLines (exactLine letter digit) = [exactLine letter digit].
Proof.
  intros Hl Hd. unfold sourceLines, exactLine.
  assert (Hup : toUpperCase (String letter (" AT " +:+ String digit EmptyString)) =
                String letter (" AT " +:+ String digit EmptyString)).
  { unfold toUpperCase. rewrite !append_cons, append_nil_l. cbn [mapChars].
    by rewrite (isUpper_upcase _ Hl), (isDigit_upcase _ Hd). }
  rewrite Hup. rewrite !append_cons, append_nil_l.
  assert (Hnl : ∀ c, isSpace c = false → c ≠ LF).
  { intros c Hc ->. done. }
  cbn [split]. rewrite (decide_False (P := letter = LF))
    by (apply Hnl; by apply isUpper_not_space).
  rewrite (decide_False (P := digit = LF)) by (apply Hnl; by apply isDigit_not_space).
  simpl fmap. unfold trim, trimStart, trimEnd. cbn [dropWhile].
  rewrite (isUpper_not_space _ Hl). unfold String.rev. cbn [String.rev_app dropWhile].
  rewrite (isDigit_not_space _ Hd). cbn [String.rev_app].
  rewrite filter_cons, decide_True by done. done.
Qed.

Lemma parseLine_exactLine rules letter digit :
  isUpper letter = true → isDigit digit = true → 1 ≤ digitValue digit →
  parseLine rules (exactLine letter digit) = setExact (digitValue digit - 1) letter rules.
Proof.
  intros Hl Hd Hpos. unfold parseLine, exactLine.
  assert (exactMatch (String letter (" AT " +:+ String digit EmptyString)) =
          Some (letter, String digit EmptyString)) as ->.
  { unfold exactMatch. by rewrite Hl, stripPrefix_append, Hd. }
  cbv zeta.
  assert (parseNat (String digit EmptyString) = digitValue digit) as ->.
  { rewrite parseNat_digits; [|done|by simpl; rewrite Hd]. rewrite decimal_cons.
    cbn [String.length Nat.pow]. unfold decimal. cbn [decimalFrom]. lia. }
  pose proof (digitValue_bound digit Hd).
  rewrite (proj2 (Nat.leb_le _ _) Hpos), (proj2 (Nat.leb_le _ 9)) by done. done.
Qed.

(** X16.  A later exact-position line overwrites what the position held:
    after a text has been compiled, a further line [<letter> AT <digit>]
    with a digit from 1 to 9 gives the same rule set with the letter at
    the zero-based position digit - 1, whatever was required there
    before, and nothing else changed. *)
Theorem parseRules_last_exact_line_wins (text : string) (letter digit : ascii) :
  isUpper letter = true → isDigit digit = true → 1 ≤ digitValue digit →
  parseRules (text +:+ String LF (exactLine letter digit)) =
    setExact (digitValue digit - 1) letter (parseRules text) ∧
  Rules.exact (parseRules (text +:+ String LF (exactLine letter digit)))
    !! (digitValue digit - 1) = Some letter.
Proof.
  intros Hl Hd Hpos.
  assert (H : parseRules (text +:+ String LF (exactLine letter digit)) =
              setExact (digitValue digit - 1) letter (parseRules text)).
  { rewrite parseRules_append.
    rewrite (sourceLines_exactLine _ _ Hl Hd). unfold parseLines. simpl.
    by apply parseLine_exactLine. }
  split; [done|]. rewrite H. simpl. apply lookup_insert_eq.
Qed.

Lemma parseRules_last_exact_line_wins_sample :
  Rules.exact (parseRules ("A AT 3" +:+ String LF (exactLine "O" "3"))) !! 2 = Some "O"%char.
Proof.
  apply (parseRules_last_exact_line_wins "A AT 3" "O"%char "3"%char); [reflexivity..|].
  vm_compute. lia.
Defined.

(** * Further properties of the evaluator and of the pipeline *)


Lemma getAllowedPositions_spec n ps p :
  p ∈ getAllowedPositions n ps ↔ p < n ∧ p ∉ ps.
Proof.
  unfold getAllowedPositions. rewrite list_elem_of_filter, elem_of_seq. split.
  - intros [? ?]. split; [lia|done].
  - intros [? ?]. split; [done|lia].
Qed.

(** X17.  [getAllowedPositions] lists, in ascending order, exactly the
    positions below the word length that are not disallowed.  A word
    that [checkRules] accepts has every letter of [present] at one of the
    positions allowed for that letter, so looking words up by the allowed
    positions of a present letter loses no word the evaluator accepts. *)
Theorem present_letter_at_allowed_position (wordLength : nat) (disallowedPositions : list nat) :
  (∀ p, p ∈ getAllowedPositions wordLength disallowedPositions ↔
        p < wordLength ∧ p ∉ disallowedPositions) ∧
  sublist (getAllowedPositions wordLength disallowedPositions) (seq 0 wordLength) ∧
  (∀ W R letter,
     checkRules W R = true →
     Rules.present R !! letter = Some disallowedPositions →
     Rules.length R = wordLength →
     ∃ p, p ∈ getAllowedPositions wordLength disallowedPositions ∧
          charAt (toUpperCase W) p = Some letter).
Proof.
  split; [intros p; apply getAllowedPositions_spec|]. split.
  { unfold getAllowedPositions. apply sublist_filter. }
  intros W R letter Hcheck Hpresent Hlen.
  apply checkRules_spec in Hcheck as (Hl & _ & _ & Hp).
  destruct (Hp letter _ Hpresent) as [[p Hat] Hnot].
  exists p. split; [|done]. apply getAllowedPositions_spec. split.
  - apply charAt_in_range in Hat. unfold lengthHolds in Hl. lia.
  - intros Hin. by apply (Hnot p Hin).
Qed.

Lemma present_letter_at_allowed_position_sample :
  ∃ p, p ∈ getAllowedPositions 5 [0; 1; 2] ∧ charAt (toUpperCase "TITAN") p = Some "A"%char.
Proof.
  destruct (present_letter_at_allowed_position 5 [0; 1; 2]) as (_ & _ & Hword).
  apply (Hword "TITAN" (parseRules "A in word, not at 1, 2, 3") "A"%char);
    vm_compute; reflexivity.
Defined.

(** * Further properties of the validation loop and of the main pipeline *)

Lemma validateLoop_cache_grows fetch N :
  ∀ candidates i known k b,
    known !! k = Some b →
    finalCache (validateLoop fetch N i candidates known) !! k = Some b.
Proof.
  induction candidates as [|w rest IH]; intros i known k b Hk; [done|].
  cbn [validateLoop finalCache]. apply IH.
  destruct (validateWordExistence_cache (fetch i) w N known) as [(_ & -> & _)|(Hfree & -> & _)];
    [done|].
  rewrite lookup_insert_ne; [done|]. intros <-. congruence.
Qed.

Lemma validateLoop_sublist fetch N :
  ∀ candidates i known, sublist (validWords (validateLoop fetch N i candidates known)) candidates.
Proof.
  induction candidates as [|w rest IH]; intros i known; [constructor|].
  cbn [validateLoop validWords]. destruct (verdict _);
    [apply sublist_skip|apply sublist_cons]; apply IH.
Qed.

Lemma validateLoop_verdicts fetch N :
  ∀ candidates i known w,
    w ∈ candidates →
    finalCache (validateLoop fetch N i candidates known) !! cacheKey (toLowerCase w) N =
    Some (bool_decide (w ∈ validWords (validateLoop fetch N i candidates known))).
Proof.
  induction candidates as [|a rest IH]; intros i known w Hw; [by apply elem_of_nil in Hw|].
  cbn [validateLoop validWords finalCache].
  set (r := validateWordExistence (fetch i) a N known).
  set (later := validateLoop fetch N (S i) rest (cache r)).
  assert (Hhead : finalCache later !! cacheKey (toLowerCase a) N = Some (verdict r)).
  { apply validateLoop_cache_grows. apply validateWordExistence_records. }
  assert (Hrest : ∀ x, x ∈ rest →
    finalCache later !! cacheKey (toLowerCase x) N =
    Some (bool_decide (x ∈ validWords later))) by (intros x Hx; by apply IH).
  destruct (verdict r) eqn:Hv.
  - destruct (decide (w = a)) as [->|Hne].
    + rewrite Hhead. f_equal. symmetry. apply bool_decide_eq_true. by left.
    + apply elem_of_cons in Hw as [?|Hw]; [done|]. rewrite (Hrest w Hw). f_equal.
      apply bool_decide_ext. rewrite elem_of_cons. tauto.
  - destruct (decide (w ∈ rest)) as [Hin|Hnin]; [by apply Hrest|].
    apply elem_of_cons in Hw as [->|?]; [|done]. rewrite Hhead. f_equal. symmetry.
    apply bool_decide_eq_false. intros Hval. apply Hnin.
    exact (elem_of_sublist _ _ _ Hval (validateLoop_sublist fetch N rest (S i) (cache r))).
Qed.

Lemma validateLoop_sent fetch N :
  ∀ candidates i known,
    sublist (sent (validateLoop fetch N i candidates known)) (dictionaryUrl <$> candidates).
Proof.
  induction candidates as [|w rest IH]; intros i known; [constructor|].
  cbn [validateLoop sent fmap list_fmap].
  destruct (validateWordExistence_cache (fetch i) w N known)
    as [(_ & _ & ->)|(_ & _ & [[-> _]|[-> _]])]; simpl;
    [apply sublist_cons|apply sublist_cons|apply sublist_skip]; apply IH.
Qed.

(** X18.  The validation loop of [main] keeps, in their order, the
    candidates the validator answers [true] for.  It never changes a
    verdict that is already cached; when it ends the cache holds, for
    every candidate, [true] or [false] according to whether the word was
    kept.  It sends at most one request per candidate, each for the
    lower-cased word, in the order of the candidates. *)
Theorem validateLoop_keeps_valid_words
    (fetch : nat → string → Fetched unit) (requiredLength i : nat)
    (candidateWords : list string) (known : gmap string bool) :
  let v := validateLoop fetch requiredLength i candidateWords known in
  sublist (validWords v) candidateWords ∧
  (∀ k b, known !! k = Some b → finalCache v !! k = Some b) ∧
  (∀ w, w ∈ candidateWords →
        finalCache v !! cacheKey (toLowerCase w) requiredLength =
        Some (bool_decide (w ∈ validWords v))) ∧
  sublist (sent v) (dictionaryUrl <$> candidateWords) ∧
  List.length (sent v) ≤ List.length candidateWords.
Proof.
  cbv zeta. split; [apply validateLoop_sublist|].
  split; [intros k b; apply validateLoop_cache_grows|].
  split; [intros w; apply validateLoop_verdicts|].
  pose proof (validateLoop_sent fetch requiredLength candidateWords i known) as Hs.
  split; [done|]. apply sublist_length in Hs. by rewrite length_fmap in Hs.
Qed.

Lemma validateLoop_keeps_valid_words_sample :
  finalCache (validateLoop (λ _, unreachable) 5 0 ["CRANE"; "STONE"] {["stone:5" := false]})
    !! "stone:5" = Some false.
Proof.
  destruct (validateLoop_keeps_valid_words (λ _, unreachable) 5 0 ["CRANE"; "STONE"]
              {["stone:5" := false]}) as (_ & Hkeep & _).
  apply Hkeep. vm_compute. reflexivity.
Defined.

Lemma toLowerCase_inj_upper (w w' : string) :
  toUpperCase w = w → toUpperCase w' = w' → toLowerCase w = toLowerCase w' → w = w'.
Proof.
  intros Hw Hw' Hlow. rewrite <- Hw, <- Hw', <- (toUpperCase_toLowerCase w),
    <- (toUpperCase_toLowerCase w'). by rewrite Hlow.
Qed.

(** With no candidate cached and the candidates distinct upper-case words
    of the required length, every turn of the loop sends its request. *)
Lemma validateLoop_fresh fetch N :
  ∀ candidates i known,
    NoDup candidates →
    (∀ w, w ∈ candidates →
          toUpperCase w = w ∧ String.length w = N ∧
          known !! cacheKey (toLowerCase w) N = None) →
    sent (validateLoop fetch N i candidates known) = dictionaryUrl <$> candidates.
Proof.
  induction candidates as [|a rest IH]; intros i known Hnd Hall; [done|].
  apply NoDup_cons in Hnd as [Ha Hnd].
  destruct (Hall a) as (Hup & Hlen & Hfree); [by left|].
  cbn [validateLoop sent fmap list_fmap].
  destruct (validateWordExistence_cache (fetch i) a N known)
    as [(Hk & _)|(_ & Hc & [[_ ?]|[-> _]])]; [congruence|done|].
  simpl. f_equal. apply IH; [done|]. intros w Hw.
  destruct (Hall w) as (Hwup & Hwlen & Hwfree); [by right|].
  split; [done|]. split; [done|]. rewrite Hc, lookup_insert_ne; [done|].
  intros Heq. apply cacheKey_inj in Heq as [Heq _].
  apply toLowerCase_inj_upper in Heq; [|done..]. by subst.
Qed.

(** X19.  When [main] reaches the validation loop, the candidates it
    validates are distinct, non-empty in number, of the length the rules
    require, in upper case and accepted by [checkRules]; the words it
    reports are among them.  In a fresh process, where the cache starts
    empty, the loop asks the dictionary exactly once per candidate: no
    candidate is answered from the cache or rejected for its length. *)
Theorem mainFromRules_validates_candidates
    (pages : string → Fetched (option string)) (dictionary : nat → string → Fetched unit)
    (dsl_rules : string) (fuel : nat) (known : gmap string bool)
    (candidateWords : list string) (v : Validation) :
  mainFromRules pages dictionary dsl_rules fuel known = Validated candidateWords v →
  let rules := parseRules dsl_rules in
  candidateWords ≠ [] ∧ NoDup candidateWords ∧
  (∀ w, w ∈ candidateWords →
        checkRules w rules = true ∧ toUpperCase w = w ∧
        String.length w = Rules.length rules) ∧
  sublist (validWords v) candidateWords ∧
  (known = ∅ → sent v = dictionaryUrl <$> candidateWords).
Proof.
  unfold mainFromRules. cbv zeta.
  destruct (collected _) as [allWords| |] eqn:Hrun; [|done..].
  destruct (List.length allWords =? 0); [done|].
  set (candidates := filter _ allWords).
  destruct (List.length candidates =? 0) eqn:Hlen; [done|]. intros [= <- <-].
  destruct (fetchWordListByPosition_returns_candidates_aux _ _ _ _ Hrun) as [Hnd Hshape].
  assert (Hcand : ∀ w, w ∈ candidates →
    checkRules w (parseRules dsl_rules) = true ∧ toUpperCase w = w ∧
    String.length w = Rules.length (parseRules dsl_rules)).
  { intros w [Hcheck Hin]%list_elem_of_filter. destruct (Hshape w Hin) as [? ?]. done. }
  split. { intros Hnil. rewrite Hnil in Hlen. done. }
  split. { by apply NoDup_filter. }
  split; [done|]. split; [apply validateLoop_sublist|].
  intros ->. apply validateLoop_fresh; [by apply NoDup_filter|].
  intros w Hw. destruct (Hcand w Hw) as (_ & ? & ?). by rewrite lookup_empty.
Qed.

Lemma mainFromRules_validates_candidates_sample :
  sent (validateLoop (λ _, unreachable) 5 0 ["AMONG"] ∅) = [dictionaryUrl "AMONG"].
Proof.
  assert (Hmain : mainFromRules twoPages (λ _, unreachable)
            (unlines ["O AT 3"; "A IN WORD"; "NO S, T, R, E"; "LENGTH: 5"]) 3 ∅ =
          Validated ["AMONG"] (validateLoop (λ _, unreachable) 5 0 ["AMONG"] ∅))
    by (vm_compute; reflexivity).
  destruct (mainFromRules_validates_candidates _ _ _ _ _ _ _ Hmain) as (_ & _ & _ & _ & Hsent).
  by apply Hsent.
Defined.

(** * The prototype and the collector *)

Lemma length_append (s t : string) :
  String.length (s +:+ t) = String.length s + String.length t.
Proof.
  induction s as [|c s IH]; [by rewrite append_nil_l|].
  rewrite append_cons. cbn [String.length]. by rewrite IH.
Qed.

Lemma dropHtmSuffix_htm (baseUrl : string) : dropHtmSuffix (baseUrl +:+ ".htm") = baseUrl.
Proof.
  induction baseUrl as [|c baseUrl IH]; [by vm_compute|].
  rewrite append_cons. cbn [dropHtmSuffix]. rewrite IH.
  rewrite bool_decide_eq_false_2; [done|].
  intros H. apply (f_equal String.length) in H.
  cbn [String.length] in H. rewrite length_append in H. cbn [String.length] in H. lia.
Qed.

Lemma prototypeUrlOf_htm (baseUrl : string) (p : nat) :
  prototypeUrlOf (baseUrl +:+ ".htm") p = pageUrlOf baseUrl p.
Proof. unfold prototypeUrlOf, pageUrlOf. by rewrite dropHtmSuffix_htm. Qed.

Lemma pageLoop_urlLoop fetch baseUrl n :
  ∀ fuel p ws req,
    pageLoop fetch baseUrl n fuel p ws req =
    {| collected := withoutDuplicates
                      (collected (urlLoop fetch (baseUrl +:+ ".htm") n fuel p ws req));
       fetchedPages := fetchedPages (urlLoop fetch (baseUrl +:+ ".htm") n fuel p ws req) |}.
Proof.
  induction fuel as [|fuel IH]; intros p ws req; [done|].
  cbn [pageLoop urlLoop]. rewrite prototypeUrlOf_htm.
  destruct (fetch (pageUrlOf baseUrl p)) as [status statusText body|name message]; [|done].
  destruct (negb (ok status)).
  { by destruct ((status =? 404) && (1 <? p)). }
  destruct body as [html|]; [|done].
  destruct (extractWordsFromHtml html n) as [pageWords|]; [|done].
  destruct (chainsTo (getNextPageNumber html) p); [apply IH|done].
Qed.

(** X20.  The prototype's first strategy and the collector of the Node
    script are the same function of the rules and the network: for the
    exact-position rule both choose, the prototype builds the address of
    page 1 with its [.htm] suffix, strips the suffix again for the later
    pages and so requests the same addresses page by page; it requests
    the same pages and, once its caller has removed the duplicates,
    returns the same list in every case, failures included. *)
Theorem prototype_first_strategy_agrees
    (fetch : string → Fetched (option string)) (rules : WordleRules)
    (position fuel : nat) (letter : ascii) :
  firstExactPosition rules = Some position →
  Rules.exact rules !! position = Some letter →
  let url := seedBaseUrl rules position letter +:+ ".htm" in
  let words := fetchWordsFromUrl fetch url (Rules.length rules) fuel in
  (∀ p, prototypeUrlOf url p = pageUrlOf (seedBaseUrl rules position letter) p) ∧
  fetchWordListByPosition fetch rules fuel =
  {| collected := withoutDuplicates (collected words); fetchedPages := fetchedPages words |}.
Proof.
  intros Hp Hl. cbv zeta. split; [apply prototypeUrlOf_htm|].
  unfold fetchWordListByPosition, fetchWordsFromUrl. rewrite Hp, Hl. apply pageLoop_urlLoop.
Qed.

Lemma prototype_first_strategy_agrees_sample :
  fetchWordListByPosition twoPages sampleRules 3 =
  {| collected := withoutDuplicates
       (collected (fetchWordsFromUrl twoPages (seedBaseUrl sampleRules 2 "O" +:+ ".htm")
                     (Rules.length sampleRules) 3));
     fetchedPages :=
       fetchedPages (fetchWordsFromUrl twoPages (seedBaseUrl sampleRules 2 "O" +:+ ".htm")
                       (Rules.length sampleRules) 3) |}.
Proof.
  apply (prototype_first_strategy_agrees twoPages sampleRules 2 3 "O"); vm_compute; reflexivity.
Defined.
